(** * A shallow embedding of the redis handler (app/handler/handler.go)

    The Go program keeps three package-level maps ([store], [rPlush],
    [blockings]) and one mutex ([mu]); every connection is served by
    [HandleConnection], which decodes a request frame with [parseArgs] and
    dispatches on the upper-cased command token.

    Go strings are byte strings: they are modelled by [string] (one [ascii]
    per byte).  Go's [int] is 64 bits wide and is modelled by [Z]; every
    integer the handlers compute stays inside that range, except the
    duration product of [handleSet], whose wrap-around is written out. *)

From Stdlib Require Import ZArith Ascii String SpecFloat.
From stdpp Require Import base numbers option list strings gmap pretty.

Local Open Scope Z_scope.

(** ** Bytes and lengths *)

Definition byte_of (c : ascii) : N := N_of_ascii c.

(** Go's [len] on a slice or a string, as an [int]. *)
Definition len {A} (l : list A) : Z := Z.of_nat (length l).
Definition strlen (s : string) : Z := Z.of_nat (String.length s).

(** [l[lo:hi]] on a slice.  Go panics unless [0 <= lo <= hi <= len l];
    the handlers only slice within these bounds ([lrange_in_bounds],
    [lpop_in_bounds]). *)
Definition slice {A} (l : list A) (lo hi : Z) : list A :=
  take (Z.to_nat (hi - lo)) (drop (Z.to_nat lo) l).

Definition wrap64 (z : Z) : Z := (z + 2 ^ 63) mod 2 ^ 64 - 2 ^ 63.

(** ** The Go library functions the handler calls *)

Module strings.

Definition upper_byte (c : ascii) : ascii :=
  let n := byte_of c in
  if ((97 <=? n) && (n <=? 122))%N then ascii_of_N (n - 32) else c.

(** [strings.ToUpper].  ASCII letters are mapped to upper case.  Among the
    runes outside ASCII only U+0131 (bytes C4 B1) and U+017F (bytes C5 BF)
    have an ASCII upper case, [I] and [S]; the bytes of every other rune
    are kept here, where Go writes some other rune outside ASCII.  The
    handler only compares the result with ASCII literals, and these
    comparisons come out as in Go. *)
Fixpoint ToUpper (s : string) : string :=
  match s with
  | EmptyString => EmptyString
  | String c r =>
      match r with
      | String d r' =>
          if ((byte_of c =? 196) && (byte_of d =? 177))%N then String "I" (ToUpper r')
          else if ((byte_of c =? 197) && (byte_of d =? 191))%N then String "S" (ToUpper r')
          else String (upper_byte c) (ToUpper r)
      | EmptyString => String (upper_byte c) EmptyString
      end
  end.

Definition HasPrefix (s p : string) : bool := String.prefix p s.

(** White space in the sense of [unicode.IsSpace]: the runes U+0009..U+000D,
    U+0020, U+0085, U+00A0, U+1680, U+2000..U+200A, U+2028, U+2029, U+202F,
    U+205F and U+3000, by their UTF-8 bytes. *)
Definition space1 (c : ascii) : bool :=
  let n := byte_of c in (((9 <=? n) && (n <=? 13)) || (n =? 32))%N.

Definition space2 (c d : ascii) : bool :=
  ((byte_of c =? 194) && ((byte_of d =? 133) || (byte_of d =? 160)))%N.

Definition space3 (c d e : ascii) : bool :=
  let '(x, y, z) := (byte_of c, byte_of d, byte_of e) in
  (((x =? 225) && (y =? 154) && (z =? 128))
   || ((x =? 226) && (y =? 128)
       && (((128 <=? z) && (z <=? 138)) || (z =? 168) || (z =? 169) || (z =? 175)))
   || ((x =? 226) && (y =? 129) && (z =? 159))
   || ((x =? 227) && (y =? 128) && (z =? 128)))%N.

(** Drops the white-space runes at the front of [s].  With [back] set, [s]
    is read as a reversed string, so that the bytes of a rune come last
    byte first. *)
Fixpoint trim_front (back : bool) (s : string) : string :=
  match s with
  | EmptyString => EmptyString
  | String c r =>
      if space1 c then trim_front back r
      else match r with
           | String d r' =>
               if (if back then space2 d c else space2 c d) then trim_front back r'
               else match r' with
                    | String e r'' =>
                        if (if back then space3 e d c else space3 c d e)
                        then trim_front back r''
                        else s
                    | EmptyString => s
                    end
           | EmptyString => s
           end
  end.

(** [strings.TrimSpace]: leading and trailing white space removed. *)
Definition TrimSpace (s : string) : string :=
  String.rev (trim_front true (String.rev (trim_front false s))).

End strings.

Module float64.

(** A [float64] is an IEEE 754 binary64 value. *)
Definition prec : Z := 53.
Definition emax : Z := 1024.

Definition of_Z (z : Z) : spec_float := binary_normalize prec emax z 0 false.
Definition mul (x y : spec_float) : spec_float := SFmul prec emax x y.
Definition eqb (x y : spec_float) : bool := SFeqb x y.

(** [int64(f)]: the fraction is discarded.  What a value outside [int64]
    (or an infinity, or a NaN) converts to is left to the platform by the
    language; the value of amd64 is taken. *)
Definition to_int64 (f : spec_float) : Z :=
  match f with
  | S754_zero _ => 0
  | S754_finite s m e =>
      let v := cond_Zopp s (if 0 <=? e then Z.pos m * 2 ^ e else Z.pos m / 2 ^ (- e)) in
      if (- 2 ^ 63 <=? v) && (v <=? 2 ^ 63 - 1) then v else - 2 ^ 63
  | _ => - 2 ^ 63
  end.

(** The binary64 nearest to [m * 10 ^ e] (ties to even), for [0 <= m].
    With [e < 0] the quotient is taken to 60 bits or more with a sticky
    last bit, so that rounding it rounds the exact value. *)
Definition of_decimal (neg : bool) (m e : Z) : spec_float :=
  if m =? 0 then S754_zero neg
  else if 0 <=? e then binary_normalize prec emax (cond_Zopp neg (m * 10 ^ e)) 0 neg
  else
    let d := 10 ^ (- e) in
    let k := Z.max 0 (Z.log2 d - Z.log2 m + 60) in
    let q := (m * 2 ^ k) / d in
    let sticky := if (m * 2 ^ k) mod d =? 0 then 0 else 1 in
    binary_normalize prec emax (cond_Zopp neg (2 * q + sticky)) (- k - 1) neg.

End float64.

Module strconv.

Definition digit (c : ascii) : option Z :=
  let n := byte_of c in
  if ((48 <=? n) && (n <=? 57))%N then Some (Z.of_N n - 48) else None.

(** The value of a string of decimal digits read after [acc]; [None] on
    any other byte. *)
Fixpoint digits (acc : Z) (s : string) : option Z :=
  match s with
  | EmptyString => Some acc
  | String c r =>
      match digit c with
      | Some d => digits (10 * acc + d) r
      | None => None
      end
  end.

Definition in_int64 (z : Z) : bool := (- 2 ^ 63 <=? z) && (z <=? 2 ^ 63 - 1).

(** [strconv.Atoi] on a 64-bit platform: an optional sign and at least one
    decimal digit, the value within [int]; anything else is an error. *)
Definition Atoi (s : string) : option Z :=
  let '(neg, ds) :=
    match s with
    | String "-" r => (true, r)
    | String "+" r => (false, r)
    | _ => (false, s)
    end in
  match ds with
  | EmptyString => None
  | _ =>
      match digits 0 ds with
      | Some n =>
          let v := if neg then - n else n in
          if in_int64 v then Some v else None
      | None => None
      end
  end.

Definition sign (s : string) : bool * string :=
  match s with
  | String "-" r => (true, r)
  | String "+" r => (false, r)
  | _ => (false, s)
  end.

(** Reads decimal digits: their value after [acc], how many there were
    after [n], and the rest of the string. *)
Fixpoint read_digits (acc n : Z) (s : string) : Z * Z * string :=
  match s with
  | EmptyString => (acc, n, s)
  | String c r =>
      match digit c with
      | Some d => read_digits (10 * acc + d) (n + 1) r
      | None => (acc, n, s)
      end
  end.

Definition exponent (s : string) : option Z :=
  match s with
  | EmptyString => Some 0
  | String c r =>
      if bool_decide (c = "e"%char ∨ c = "E"%char) then
        let '(neg, ds) := sign r in
        match ds with
        | EmptyString => None
        | _ => cond_Zopp neg <$> digits 0 ds
        end
      else None
  end.

Definition ascii_upper (s : string) : string :=
  String.string_of_list_ascii (strings.upper_byte <$> String.list_ascii_of_string s).

(** A parser for [handleBLPop] to be run with: the decimal literals of
    [strconv.ParseFloat(s, 64)] (sign, digits with an optional point, an
    optional decimal exponent), rounded to the nearest binary64, a value
    that rounds to an infinity being a range error; and its infinities and
    NaN.  The hexadecimal literals and the digit separators of the library
    are not taken by this one. *)
Definition ParseFloat_decimal (s : string) : option spec_float :=
  let u := ascii_upper s in
  if bool_decide (u ∈ ["INF"; "+INF"; "INFINITY"; "+INFINITY"]) then Some (S754_infinity false)
  else if bool_decide (u ∈ ["-INF"; "-INFINITY"]) then Some (S754_infinity true)
  else if bool_decide (u = "NAN") then Some S754_nan
  else
    let '(neg, r) := sign s in
    let '(ip, ni, r) := read_digits 0 0 r in
    let '(m, nf, r) :=
      match r with
      | String "." r' => read_digits ip 0 r'
      | _ => (ip, 0, r)
      end in
    if ni + nf =? 0 then None
    else
      match exponent r with
      | None => None
      | Some e =>
          match float64.of_decimal neg m (e - nf) with
          | S754_infinity _ => None
          | f => Some f
          end
      end.

End strconv.

Module fmt.

(** [%d] of [fmt.Sprintf] on an [int]. *)
Definition Sprintf_d (n : Z) : string := pretty n.

(** The longest prefix of decimal digits of [s]. *)
Fixpoint scan_digits (s : string) : string :=
  match s with
  | EmptyString => EmptyString
  | String c r =>
      match strconv.digit c with
      | Some _ => String c (scan_digits r)
      | None => EmptyString
      end
  end.

(** [fmt.Sscanf(s, "*%d", &n)], as the value stored in [n] or [None] when
    the scan fails and [n] is left alone: the literal [*], then white
    space skipped, an optional sign, one or more decimal digits; what
    follows the digits is not looked at; a number outside [int64] is an
    error.  (A line feed inside the white space is an error too; the
    handler scans a single trimmed line, which has none.) *)
Definition Sscanf_star_d (s : string) : option Z :=
  match s with
  | String "*" r =>
      let r := strings.trim_front false r in
      let '(neg, r) :=
        match r with
        | String "-" r' => (true, r')
        | String "+" r' => (false, r')
        | _ => (false, r)
        end in
      match scan_digits r with
      | EmptyString => None
      | ds =>
          match strconv.digits 0 ds with
          | Some n =>
              let v := if neg then - n else n in
              if strconv.in_int64 v then Some v else None
          | None => None
          end
      end
  | _ => None
  end.

End fmt.

(** ** Data model (package types, and the package-level variables) *)

Module time.

(** A [time.Time] is either the zero value [time.Time{}] or a reading of
    the clock, in nanoseconds.  A reading is never equal to the zero
    value: it carries the local location, which the zero value lacks. *)
Inductive Time := Zero | At (ns : Z).

Global Instance Time_eq_dec : EqDecision Time.
Proof. solve_decision. Defined.

Definition Millisecond : Z := 1000000.
Definition Second : Z := 1000000000.

(** [t.Add(d)] on a clock reading. *)
Definition Add (t : Z) (d : Z) : Time := At (t + d).

(** [t.After(u)]: [t] is strictly later than [u]. *)
Definition After (t : Z) (u : Time) : bool :=
  match u with
  | At n => n <? t
  | Zero => true
  end.

End time.

Module types.

Record Entry := { Value : string; ExpiryTime : time.Time }.

(** A [chan string] is named by the number [make] gave it. *)
Record BlockingRequest := { Key : string; Ch : nat; Timeout : Z }.

Global Instance Entry_eq_dec : EqDecision Entry.
Proof. solve_decision. Defined.

Global Instance BlockingRequest_eq_dec : EqDecision BlockingRequest.
Proof. solve_decision. Defined.

End types.
Export types.

(** An [error] value: one returned by the reader, or one made by
    [errors.New]. *)
Inductive error := ReadError (msg : string) | errors_New (msg : string).

Definition Error (e : error) : string :=
  match e with ReadError m => m | errors_New m => m end.

(** A connection with its [bufio.Reader]: the lines still to arrive (each
    as [ReadString] returns it, line feed included), the error every read
    gives once they are used up, and the bytes written so far. *)
Record Conn := {
  pending : list string;
  read_err : error;
  written : string
}.

(** What one goroutine serving one connection sees: the package-level
    variables, the channels made so far (a [chan string] of capacity 1 is
    its buffer: absent when empty), the clock read by [time.Now], and its
    connection.  Another goroutine runs on the same world with its own
    connection in [conn]. *)
Record World := {
  store : gmap string Entry;
  rPlush : gmap string (list string);
  blockings : gmap string (list BlockingRequest);
  mu : bool;
  chans : gmap nat string;
  next_chan : nat;
  now : Z;
  conn : Conn
}.

Definition set_store (f : gmap string Entry → gmap string Entry) (w : World) : World :=
  {| store := f (store w); rPlush := rPlush w; blockings := blockings w; mu := mu w;
     chans := chans w; next_chan := next_chan w; now := now w; conn := conn w |}.

Definition set_rPlush (f : gmap string (list string) → gmap string (list string))
    (w : World) : World :=
  {| store := store w; rPlush := f (rPlush w); blockings := blockings w; mu := mu w;
     chans := chans w; next_chan := next_chan w; now := now w; conn := conn w |}.

Definition set_blockings
    (f : gmap string (list BlockingRequest) → gmap string (list BlockingRequest))
    (w : World) : World :=
  {| store := store w; rPlush := rPlush w; blockings := f (blockings w); mu := mu w;
     chans := chans w; next_chan := next_chan w; now := now w; conn := conn w |}.

Definition set_mu (b : bool) (w : World) : World :=
  {| store := store w; rPlush := rPlush w; blockings := blockings w; mu := b;
     chans := chans w; next_chan := next_chan w; now := now w; conn := conn w |}.

Definition set_chans (f : gmap nat string → gmap nat string) (w : World) : World :=
  {| store := store w; rPlush := rPlush w; blockings := blockings w; mu := mu w;
     chans := f (chans w); next_chan := next_chan w; now := now w; conn := conn w |}.

Definition set_next_chan (n : nat) (w : World) : World :=
  {| store := store w; rPlush := rPlush w; blockings := blockings w; mu := mu w;
     chans := chans w; next_chan := n; now := now w; conn := conn w |}.

Definition set_now (t : Z) (w : World) : World :=
  {| store := store w; rPlush := rPlush w; blockings := blockings w; mu := mu w;
     chans := chans w; next_chan := next_chan w; now := t; conn := conn w |}.

Definition set_conn (f : Conn → Conn) (w : World) : World :=
  {| store := store w; rPlush := rPlush w; blockings := blockings w; mu := mu w;
     chans := chans w; next_chan := next_chan w; now := now w; conn := f (conn w) |}.

(** [conn.Write(b)]. *)
Definition Write (b : string) (w : World) : World :=
  set_conn (λ c, {| pending := pending c; read_err := read_err c;
                    written := written c +:+ b |}) w.

(** [reader.ReadString('\n')]. *)
Definition ReadString (w : World) : (string + error) * World :=
  match pending (conn w) with
  | l :: ls =>
      (inl l, set_conn (λ c, {| pending := ls; read_err := read_err c;
                                written := written c |}) w)
  | [] => (inr (read_err (conn w)), w)
  end.

(** How a handler call ends: it returns; or the goroutine is parked in
    [mu.Lock()] having done nothing yet; or it is parked in BLPOP on the
    channel of the request it queued ([forever] when no timer runs). *)
Inductive outcome :=
| Done (w : World)
| LockWait
| ChanWait (w : World) (req : BlockingRequest) (forever : bool).

(** ** Reply writers *)

Definition CRLF : string := String "013" (String "010" EmptyString).

Definition writeError (msg : string) (w : World) : World :=
  Write ("-ERR " +:+ msg +:+ CRLF) w.

Definition writeSimpleString (msg : string) (w : World) : World :=
  Write ("+" +:+ msg +:+ CRLF) w.

Definition writeBulkString (s : string) (w : World) : World :=
  if decide (s = "") then Write ("$-1" +:+ CRLF) w
  else Write ("$" +:+ fmt.Sprintf_d (strlen s) +:+ CRLF +:+ s +:+ CRLF) w.

Definition writeInteger (n : Z) (w : World) : World :=
  Write (":" +:+ fmt.Sprintf_d n +:+ CRLF) w.

Definition writeNull (w : World) : World :=
  Write ("$-1" +:+ CRLF) w.

(** ** The handlers *)

(** [args[i]]; every use is behind the arity check of its handler, so
    the index is in range. *)
Definition arg (args : list string) (i : nat) : string := nth i args "".

(** [m[key]] on a map of slices: the nil slice when [key] is absent. *)
Definition at_key {A} (m : gmap string (list A)) (key : string) : list A :=
  default [] (m !! key).

(** [v, ok := m[key]]. *)
Definition comma_ok {A} (zero : A) (o : option A) : A * bool :=
  match o with Some v => (v, true) | None => (zero, false) end.

Definition handlePing (w : World) : outcome :=
  Done (writeSimpleString "PONG" w).

Definition handleEcho (args : list string) (w : World) : outcome :=
  if negb (len args =? 2) then
    Done (writeError "wrong number of arguments for 'ECHO'" w)
  else Done (writeSimpleString (arg args 1) w).

Definition handleSet (args : list string) (w : World) : outcome :=
  if len args <? 3 then
    Done (writeError "wrong number of arguments for 'SET'" w)
  else
    let key := arg args 1 in
    let val := arg args 2 in
    let finish (expiry : time.Time) :=
      let w := set_store <[key := {| Value := val; ExpiryTime := expiry |}]> w in
      Done (writeSimpleString "OK" w) in
    if (5 <=? len args) && bool_decide (strings.ToUpper (arg args 3) = "PX") then
      match strconv.Atoi (arg args 4) with
      | None => Done (writeError "PX value must be integer" w)
      | Some ms => finish (time.Add (now w) (wrap64 (ms * time.Millisecond)))
      end
    else finish time.Zero.

Definition handleGet (args : list string) (w : World) : outcome :=
  if negb (len args =? 2) then
    Done (writeError "wrong number of arguments for 'GET'" w)
  else
    let key := arg args 1 in
    let '(entry, ok) :=
      comma_ok {| Value := ""; ExpiryTime := time.Zero |} (store w !! key) in
    if negb ok
       || (bool_decide (ExpiryTime entry ≠ time.Zero)
           && time.After (now w) (ExpiryTime entry))
    then
      let w := set_store (delete key) w in
      Done (writeNull w)
    else Done (writeBulkString (Value entry) w).

(** [select { case req.Ch <- key: default: }] after the head of the queue
    of [key] is taken off: the send goes through when the buffer of the
    channel has room and is skipped otherwise. *)
Definition wakeUpFirstBlocking (key : string) (w : World) : World :=
  match blockings w !! key with
  | Some (req :: rest) =>
      let w := set_blockings <[key := rest]> w in
      match chans w !! Ch req with
      | None => set_chans <[Ch req := key]> w
      | Some _ => w
      end
  | _ => w
  end.

Definition handleLPush (args : list string) (w : World) : outcome :=
  if len args <? 3 then
    Done (writeError "wrong number of arguments for 'LPUSH'" w)
  else
    let key := arg args 1 in
    if mu w then LockWait
    else
      let w := set_mu true w in
      let w :=
        foldl (λ w a, set_rPlush (λ m, <[key := a :: at_key m key]> m) w)
          w (drop 2 args) in
      let w := wakeUpFirstBlocking key w in
      let w := writeInteger (len (at_key (rPlush w) key)) w in
      Done (set_mu false w).

Definition handleRPush (args : list string) (w : World) : outcome :=
  if len args <? 3 then
    Done (writeError "wrong number of arguments for 'RPUSH'" w)
  else
    let key := arg args 1 in
    if mu w then LockWait
    else
      let w := set_mu true w in
      let w :=
        foldl (λ w a, set_rPlush (λ m, <[key := at_key m key ++ [a]]> m) w)
          w (drop 2 args) in
      let w := wakeUpFirstBlocking key w in
      let w := writeInteger (len (at_key (rPlush w) key)) w in
      Done (set_mu false w).

(** [for _, item := range items { writeBulkString(conn, item) }]. *)
Definition writeBulkStrings (items : list string) (w : World) : World :=
  foldl (λ w item, writeBulkString item w) w items.

(** The index arithmetic of [handleLRange] on [start] and [end]. *)
Definition from_end (n i : Z) : Z :=
  if i <? 0 then (let i := n + i in if i <? 0 then 0 else i) else i.

Definition handleLRange (args : list string) (w : World) : outcome :=
  if negb (len args =? 4) then
    Done (writeError "wrong number of arguments for 'LRANGE'" w)
  else
    let key := arg args 1 in
    match strconv.Atoi (arg args 2), strconv.Atoi (arg args 3) with
    | Some start, Some end_ =>
        let list := at_key (rPlush w) key in
        let start := from_end (len list) start in
        let end_ := from_end (len list) end_ in
        if (len list <=? start) || (end_ <? start) then
          Done (Write ("*0" +:+ CRLF) w)
        else
          let end_ := if len list <=? end_ then len list - 1 else end_ in
          let sublist := slice list start (end_ + 1) in
          let w := Write ("*" +:+ fmt.Sprintf_d (len sublist) +:+ CRLF) w in
          Done (writeBulkStrings sublist w)
    | _, _ => Done (writeError "invalid start or end index" w)
    end.

Definition handleLLen (args : list string) (w : World) : outcome :=
  if negb (len args =? 2) then
    Done (writeError "wrong number of arguments for 'LLEN'" w)
  else Done (writeInteger (len (at_key (rPlush w) (arg args 1))) w).

Definition handleLPop (args : list string) (w : World) : outcome :=
  if len args <? 2 then
    Done (writeError "wrong number of arguments for 'LPOP'" w)
  else
    let key := arg args 1 in
    let list := at_key (rPlush w) key in
    if len list =? 0 then Done (writeNull w)
    else if len args =? 3 then
      let count :=
        match strconv.Atoi (arg args 2) with
        | Some count => if count <=? 0 then 1 else count
        | None => 1
        end in
      let count := if len list <? count then len list else count in
      let w := set_rPlush <[key := slice list count (len list)]> w in
      let w := Write ("*" +:+ fmt.Sprintf_d count +:+ CRLF) w in
      Done (foldl (λ w i, writeBulkString (nth i list "") w) w (seq 0 (Z.to_nat count)))
    else
      let w := set_rPlush <[key := slice list 1 (len list)]> w in
      Done (writeBulkString (nth 0 list "") w).

Section Server.

(** [strconv.ParseFloat(s, 64)], [None] when it returns an error.  Which
    strings it takes (decimal and hexadecimal literals, infinities, NaN)
    and how it rounds is the library's business; the handler is modelled
    for any such function. *)
Variable ParseFloat : string → option spec_float.

(** BLPOP up to the point where the goroutine waits on its channel. The
    return on a bad timeout leaves [mu] locked, as the source does. *)
Definition handleBLPop (args : list string) (w : World) : outcome :=
  if negb (len args =? 3) then
    Done (writeError "wrong number of arguments for 'BLPOP'" w)
  else if mu w then LockWait
  else
    let w := set_mu true w in
    let key := arg args 1 in
    match rPlush w !! key with
    | Some (value :: rest) =>
        let w := set_rPlush <[key := rest]> w in
        let w := set_mu false w in
        let w := Write ("*2" +:+ CRLF) w in
        let w := writeBulkString key w in
        Done (writeBulkString value w)
    | _ =>
        let timeoutStr := arg args 2 in
        match ParseFloat timeoutStr with
        | None => Done (writeError "timeout must be a number" w)
        | Some timeout =>
            let ch := next_chan w in
            let w := set_next_chan (S ch) w in
            let blocking :=
              {| Key := key; Ch := ch;
                 Timeout := float64.to_int64
                              (float64.mul timeout (float64.of_Z time.Second)) |} in
            let w := set_blockings (λ m, <[key := at_key m key ++ [blocking]]> m) w in
            let w := set_mu false w in
            ChanWait w blocking (float64.eqb timeout (S754_zero false))
        end
    end.

(** The waiting goroutine of BLPOP once a value sits in its channel
    ([<-ch]); it stays parked while the channel is empty.  Without a
    timer the list is read at the key of the request, with a timer at the
    key received.  (No channel is ever closed, so the [!ok] branch of the
    source is not reached.) *)
Definition handleBLPop_signal (req : BlockingRequest) (forever : bool)
    (w : World) : outcome :=
  match chans w !! Ch req with
  | None => ChanWait w req forever
  | Some sent =>
      let w := set_chans (delete (Ch req)) w in
      let key := if forever then Key req else sent in
      match at_key (rPlush w) key with
      | value :: rest =>
          let w := set_rPlush <[key := rest]> w in
          let w := Write ("*2" +:+ CRLF) w in
          let w := writeBulkString key w in
          Done (writeBulkString value w)
      | [] => Done w
      end
  end.

(** The waiting goroutine of BLPOP when its timer fires
    ([<-time.After(blocking.Timeout)]). *)
Definition handleBLPop_timeout (req : BlockingRequest) (w : World) : outcome :=
  if mu w then LockWait
  else
    let w := set_mu true w in
    let list := at_key (blockings w) (Key req) in
    let newList := filter (λ r, Ch r ≠ Ch req) list in
    let w := set_blockings <[Key req := newList]> w in
    let w := set_mu false w in
    Done (writeNull w).

(** ** Decoding a request *)

Definition parseLength (s : string) : Z :=
  match fmt.Sscanf_star_d s with Some n => n | None => 0 end.

(** The loop of [parseArgs], [n] rounds to go. *)
Fixpoint parseArgs_loop (n : nat) (args : list string) (w : World)
    : (list string + error) * World :=
  match n with
  | O => (inl args, w)
  | S n' =>
      match ReadString w with
      | (inr err, w) => (inr err, w)
      | (inl _, w) =>
          match ReadString w with
          | (inr err, w) => (inr err, w)
          | (inl a, w) => parseArgs_loop n' (args ++ [strings.TrimSpace a]) w
          end
      end
  end.

Definition parseArgs (w : World) : (list string + error) * World :=
  match ReadString w with
  | (inr err, w) => (inr err, w)
  | (inl line, w) =>
      let line := strings.TrimSpace line in
      if bool_decide (line = "") || negb (strings.HasPrefix line "*") then
        let w := writeError "invalid format" w in
        (inr (errors_New "invalid format"), w)
      else
        let n := parseLength line in
        parseArgs_loop (Z.to_nat n) [] w
  end.

(** ** The connection loop *)

Definition supported : list string :=
  ["PING"; "ECHO"; "SET"; "GET"; "LPUSH"; "RPUSH"; "LRANGE"; "LLEN"; "LPOP"; "BLPOP"].

(** The [switch] of [HandleConnection]. *)
Definition dispatch (args : list string) (w : World) : outcome :=
  let cmd := strings.ToUpper (arg args 0) in
  if decide (cmd = "PING") then handlePing w
  else if decide (cmd = "ECHO") then handleEcho args w
  else if decide (cmd = "SET") then handleSet args w
  else if decide (cmd = "GET") then handleGet args w
  else if decide (cmd = "LPUSH") then handleLPush args w
  else if decide (cmd = "RPUSH") then handleRPush args w
  else if decide (cmd = "LRANGE") then handleLRange args w
  else if decide (cmd = "LLEN") then handleLLen args w
  else if decide (cmd = "LPOP") then handleLPop args w
  else if decide (cmd = "BLPOP") then handleBLPop args w
  else Done (writeError ("unknown command '" +:+ arg args 0 +:+ "'") w).

(** One round of the [for] loop of [HandleConnection].  Every path of the
    body ends in [continue] or at the end of the body: the source has no
    [return] and no [break], so a round that is [Done] is followed by the
    next round. *)
Definition HandleConnection_body (w : World) : outcome :=
  match parseArgs w with
  | (inr err, w) => Done (writeError (Error err) w)
  | (inl args, w) =>
      if len args =? 0 then Done (writeError "empty command" w)
      else dispatch args w
  end.

(** [rounds] rounds of the loop, stopping early only where the goroutine
    is parked. *)
Fixpoint HandleConnection (rounds : nat) (w : World) : outcome :=
  match rounds with
  | O => Done w
  | S n =>
      match HandleConnection_body w with
      | Done w => HandleConnection n w
      | parked => parked
      end
  end.

End Server.

(** ** The single-file server

    An earlier [main] package of the repository serves PING, ECHO, SET and
    GET from one function, [handleConnection], with a store of its own.
    Its [Entry] has the fields of [types.Entry] in lower case; the store,
    the clock and the connection are those of [World]. *)

Module main.

Definition parseLength (s : string) : Z :=
  match fmt.Sscanf_star_d s with Some n => n | None => 0 end.

(** How a round of the loop ends: in [continue] (or at the end of the
    body), or in [return]. *)
Inductive round := Continue (w : World) | Return (w : World).

(** The loop that reads the arguments, [n] rounds to go; [None] where the
    source returns on a read error. *)
Fixpoint read_args (n : nat) (args : list string) (w : World)
    : option (list string) * World :=
  match n with
  | O => (Some args, w)
  | S n' =>
      match ReadString w with
      | (inr _, w) => (None, w)
      | (inl _, w) =>
          match ReadString w with
          | (inr _, w) => (None, w)
          | (inl a, w) => read_args n' (args ++ [strings.TrimSpace a]) w
          end
      end
  end.

(** The [switch] on the command. *)
Definition switch (args : list string) (w : World) : World :=
  let cmd := strings.ToUpper (arg args 0) in
  if decide (cmd = "PING") then Write ("+PONG" +:+ CRLF) w
  else if decide (cmd = "ECHO") then
    if negb (len args =? 2) then
      Write ("-ERR wrong number of arguments for 'ECHO'" +:+ CRLF) w
    else Write ("+" +:+ arg args 1 +:+ CRLF) w
  else if decide (cmd = "SET") then
    if len args <? 3 then
      Write ("-ERR wrong number of arguments for 'SET'" +:+ CRLF) w
    else
      let key := arg args 1 in
      let val := arg args 2 in
      let finish (expiry : time.Time) :=
        let w := set_store <[key := {| Value := val; ExpiryTime := expiry |}]> w in
        Write ("+OK" +:+ CRLF) w in
      if (5 <=? len args) && bool_decide (strings.ToUpper (arg args 3) = "PX") then
        match strconv.Atoi (arg args 4) with
        | None => Write ("-ERR PX value must be integer" +:+ CRLF) w
        | Some ms => finish (time.Add (now w) (wrap64 (ms * time.Millisecond)))
        end
      else finish time.Zero
  else if decide (cmd = "GET") then
    if negb (len args =? 2) then
      Write ("-ERR wrong number of arguments for 'GET'" +:+ CRLF) w
    else
      let key := arg args 1 in
      let '(entry, ok) :=
        comma_ok {| Value := ""; ExpiryTime := time.Zero |} (store w !! key) in
      if negb ok
         || (bool_decide (ExpiryTime entry ≠ time.Zero)
             && time.After (now w) (ExpiryTime entry))
      then
        let w := set_store (delete key) w in
        Write ("$-1" +:+ CRLF) w
      else Write ("+" +:+ Value entry +:+ CRLF) w
  else Write ("-ERR unknown command '" +:+ arg args 0 +:+ "'" +:+ CRLF) w.

(** One round of the [for] loop of [handleConnection]. *)
Definition handleConnection_body (w : World) : round :=
  match ReadString w with
  | (inr _, w) => Return w
  | (inl line, w) =>
      let line := strings.TrimSpace line in
      if decide (line = "") then Continue w
      else if negb (strings.HasPrefix line "*") then
        Continue (Write ("-ERR invalid format" +:+ CRLF) w)
      else
        let numArgs := parseLength line in
        match read_args (Z.to_nat numArgs) [] w with
        | (None, w) => Return w
        | (Some args, w) =>
            if len args =? 0 then Continue (Write ("-ERR empty command" +:+ CRLF) w)
            else Continue (switch args w)
        end
  end.

(** The loop, for at most [rounds] rounds. *)
Fixpoint handleConnection (rounds : nat) (w : World) : round :=
  match rounds with
  | O => Continue w
  | S n =>
      match handleConnection_body w with
      | Continue w => handleConnection n w
      | Return w => Return w
      end
  end.

End main.

(** ** Worlds for the examples *)

(** A connection on which [lines] arrive before the peer closes it. *)
Definition client (lines : list string) : Conn :=
  {| pending := lines; read_err := ReadError "EOF"; written := "" |}.

(** The server as it starts, serving [lines]. *)
Definition boot (lines : list string) : World :=
  {| store := ∅; rPlush := ∅; blockings := ∅; mu := false; chans := ∅;
     next_chan := 0; now := 0; conn := client lines |}.

(** The bytes written to the connection when the call returned. *)
Definition reply (o : outcome) : string :=
  match o with Done w => written (conn w) | _ => "" end.

(** The bytes a client sends for [args]: the count, then every element
    with its length in bytes before it. *)
Definition wire (args : list string) : string :=
  "*" +:+ fmt.Sprintf_d (len args) +:+ CRLF
  +:+ foldr (λ a acc, "$" +:+ fmt.Sprintf_d (strlen a) +:+ CRLF +:+ a +:+ CRLF +:+ acc)
        "" args.

(** The lines [reader.ReadString('\n')] cuts the bytes [s] into, each with
    its line feed at the end: a line feed inside an element ends a line
    like any other.  Bytes after the last line feed come with the error of
    the reader, and every caller drops them. *)
Fixpoint lines (s : string) : list string :=
  match s with
  | EmptyString => []
  | String c r =>
      if Ascii.eqb c "010" then String c "" :: lines r
      else match lines r with
           | [] => []
           | l :: ls => String c l :: ls
           end
  end.

(** The frame a client sends for [args], as the reader hands it out. *)
Definition frame (args : list string) : list string := lines (wire args).

(** The wire form of a bulk string that carries [s], and of the null bulk
    string. *)
Definition bulk (s : string) : string :=
  "$" +:+ fmt.Sprintf_d (strlen s) +:+ CRLF +:+ s +:+ CRLF.

Definition null : string := "$-1" +:+ CRLF.

(** ** Definitions for the properties *)

(** An array reply: the header with the count, then every item as
    [writeBulkString] writes it. *)
Definition write_array (items : list string) (w : World) : World :=
  writeBulkStrings items (Write ("*" +:+ fmt.Sprintf_d (len items) +:+ CRLF) w).

(** LRANGE in the words of the specification: a negative index counts from
    the end of the list, both bounds are clamped into [[0, length - 1]],
    the result is empty when the clamped start exceeds the clamped end or
    the start is past the end of the list, and is the elements from the
    clamped start through the clamped end otherwise. *)
Definition LRANGE_spec (l : list string) (start end_ : Z) : list string :=
  let n := len l in
  let counted i := if i <? 0 then n + i else i in
  let clamped i := Z.max 0 (Z.min (n - 1) (counted i)) in
  if (clamped end_ <? clamped start) || (n <=? counted start) then []
  else slice l (clamped start) (clamped end_ + 1).

(** The count LPOP works with: the argument, 1 when it does not parse or
    is not positive, and never more than the length [n] of the list. *)
Definition LPOP_count (c : string) (n : Z) : Z :=
  let count :=
    match strconv.Atoi c with
    | Some k => if k <=? 0 then 1 else k
    | None => 1
    end in
  Z.min count n.

(** What a push on [key] does to the waiters, from [w] to [w']: with no
    waiter queued nothing; otherwise the head of the queue is taken off and
    [key] is put in its channel if the buffer is free. *)
Definition woken (key : string) (w w' : World) : Prop :=
  match at_key (blockings w) key with
  | [] => blockings w' = blockings w ∧ chans w' = chans w
  | req :: rest =>
      blockings w' = <[key := rest]> (blockings w)
      ∧ chans w' = match chans w !! Ch req with
                   | None => <[Ch req := key]> (chans w)
                   | Some _ => chans w
                   end
  end.

(** [n] copies of [s] in a row. *)
Fixpoint copies (n : nat) (s : string) : string :=
  match n with
  | O => ""
  | S n => s +:+ copies n s
  end.

(** The connection once every pending line has been read. *)
Definition drained (w : World) : World :=
  set_conn (λ c, {| pending := []; read_err := read_err c; written := written c |}) w.

(** The store after [SET k ""] on the server as it starts. *)
Definition after_set_empty : World :=
  writeSimpleString "OK"
    (set_store <["k" := {| Value := ""; ExpiryTime := time.Zero |}]> (boot [])).

(** Two clients wait on the list [jobs], the one on channel 0 first. *)
Definition two_waiters : World :=
  set_next_chan 2
    (set_blockings
       <["jobs" := [ {| Key := "jobs"; Ch := 0; Timeout := 0 |};
                     {| Key := "jobs"; Ch := 1; Timeout := 200000000 |} ]]>
       (boot [])).

(** The list [jobs] holds one element and nobody waits. *)
Definition one_job : World := set_rPlush <["jobs" := ["task1"]]> (boot []).

(** The list [mylist] holds three elements. *)
Definition three_items : World := set_rPlush <["mylist" := ["a"; "b"; "c"]]> (boot []).

(** What [writeBulkString] writes for [s]. *)
Definition encode_bulk (s : string) : string :=
  if decide (s = "") then null else bulk s.

(** The bytes of a run of bulk strings, and of an array reply. *)
Definition encode_bulks (items : list string) : string :=
  foldr (λ s acc, encode_bulk s +:+ acc) "" items.

Definition encode_array (items : list string) : string :=
  "*" +:+ fmt.Sprintf_d (len items) +:+ CRLF +:+ encode_bulks items.

(** The world with [lines] left to read on the connection. *)
Definition with_pending (lines : list string) (w : World) : World :=
  set_conn (λ c, {| pending := lines; read_err := read_err c; written := written c |}) w.

(** [s] holds no line feed. *)
Fixpoint one_line (s : string) : bool :=
  match s with
  | EmptyString => true
  | String c r => negb (Ascii.eqb c "010") && one_line r
  end.

(** The lines of the elements of a frame: for each element the line that
    [parseArgs] skips and the line of the payload. *)
Definition interleave (pairs : list (string * string)) : list string :=
  concat ((λ p, [p.1; p.2]) <$> pairs).

(** Several pushes on the tail of one list, one call after the other. *)
Fixpoint pushes (key : string) (vss : list (list string)) (w : World) : outcome :=
  match vss with
  | [] => Done w
  | vs :: rest =>
      match handleRPush ("RPUSH" :: key :: vs) w with
      | Done w' => pushes key rest w'
      | parked => parked
      end
  end.

(** The waiter queues are in order: every request sits in the queue of
    its own key, its channel was made before the next one to be made, and
    no channel is twice in a queue. *)
Definition queues_ok (w : World) : Prop :=
  ∀ key,
    Forall (λ r, Key r = key ∧ (Ch r < next_chan w)%nat) (at_key (blockings w) key)
    ∧ NoDup (Ch <$> at_key (blockings w) key).

(** What a call can do to the queues: nothing, or take requests out, or
    put one request with a new channel at the end of the queue of its
    key. *)
Definition queues_step (w : World) (o : outcome) : Prop :=
  match o with
  | Done w' =>
      next_chan w' = next_chan w
      ∧ ∀ k, at_key (blockings w') k `sublist_of` at_key (blockings w) k
  | LockWait => True
  | ChanWait w' req _ =>
      next_chan w' = S (next_chan w) ∧ Ch req = next_chan w
      ∧ blockings w'
        = <[Key req := at_key (blockings w) (Key req) ++ [req]]> (blockings w)
  end.

(** The arity check at the head of each handler, by the command name; the
    handler of PING has none. *)
Definition arity_ok (name : string) (n : Z) : bool :=
  if decide (name ∈ ["ECHO"; "GET"; "LLEN"]) then n =? 2
  else if decide (name ∈ ["SET"; "LPUSH"; "RPUSH"]) then 3 <=? n
  else if decide (name = "LRANGE") then n =? 4
  else if decide (name = "LPOP") then 2 <=? n
  else if decide (name = "BLPOP") then n =? 3
  else true.

(** * Properties *)

(** Splits the goal on every integer comparison in it. *)
Ltac by_cases :=
  repeat match goal with
    | |- context [?a <? ?b] => destruct (Z.ltb_spec a b)
    | |- context [?a <=? ?b] => destruct (Z.leb_spec a b)
    | |- context [?a =? ?b] => destruct (Z.eqb_spec a b)
    end.

(** ** Records and strings *)

Lemma World_eta w :
  {| store := store w; rPlush := rPlush w; blockings := blockings w; mu := mu w;
     chans := chans w; next_chan := next_chan w; now := now w; conn := conn w |} = w.
Proof. by destruct w. Qed.

Lemma append_assoc (a b c : string) : (a +:+ b) +:+ c = a +:+ b +:+ c.
Proof.
  induction a as [|x a IH]; [done|].
  change (String x ((a +:+ b) +:+ c) = String x (a +:+ b +:+ c)). by rewrite IH.
Qed.

Lemma append_empty_r (a : string) : a +:+ "" = a.
Proof.
  induction a as [|x a IH]; [done|].
  change (String x (a +:+ "") = String x a). by rewrite IH.
Qed.

Lemma Write_Write (a b : string) (w : World) :
  Write b (Write a w) = Write (a +:+ b) w.
Proof. unfold Write, set_conn. cbn. by rewrite append_assoc. Qed.

Lemma Write_empty (w : World) : Write "" w = w.
Proof.
  unfold Write, set_conn. rewrite append_empty_r.
  destruct w as [? ? ? ? ? ? ? []]. reflexivity.
Qed.

Lemma writeBulkString_Write (s : string) (w : World) :
  writeBulkString s w = Write (encode_bulk s) w.
Proof. unfold writeBulkString, encode_bulk. by case_decide. Qed.

Lemma foldl_writeBulkString {A} (f : A → string) (xs : list A) (w : World) :
  foldl (λ w x, writeBulkString (f x) w) w xs = Write (encode_bulks (f <$> xs)) w.
Proof.
  revert w. induction xs as [|x xs IH]; intros w; cbn [foldl fmap list_fmap encode_bulks foldr].
  - by rewrite Write_empty.
  - by rewrite IH, writeBulkString_Write, Write_Write.
Qed.

Lemma writeBulkStrings_Write (items : list string) (w : World) :
  writeBulkStrings items w = Write (encode_bulks items) w.
Proof.
  unfold writeBulkStrings. rewrite <- (list_fmap_id items) at 2.
  apply (foldl_writeBulkString id).
Qed.

Lemma write_array_Write (items : list string) (w : World) :
  write_array items w = Write (encode_array items) w.
Proof.
  unfold write_array, encode_array. rewrite writeBulkStrings_Write, Write_Write.
  by rewrite !append_assoc.
Qed.

Lemma set_store_same f w : f (store w) = store w → set_store f w = w.
Proof. intros E. unfold set_store. rewrite E. apply World_eta. Qed.

Lemma writeBulkString_bulk s w :
  s ≠ "" → writeBulkString s w = Write (bulk s) w.
Proof. intros Hs. unfold writeBulkString. by case_decide. Qed.

Lemma writeBulkString_empty w : writeBulkString "" w = Write null w.
Proof. reflexivity. Qed.

Section Properties.

Variable ParseFloat : string → option spec_float.

(** ** SET and GET *)

(** C10.  SET with exactly four arguments, the command token in any
    case, answers [+OK] and stores the entry with no expiry, whatever the
    fourth argument is: no error is written, and nothing but the entry of
    the key is changed. *)
Theorem set_four_arguments (c k v x : string) (w : World) :
  strings.ToUpper c = "SET" →
  ∃ w',
    dispatch ParseFloat [c; k; v; x] w = Done w'
    ∧ written (conn w') = written (conn w) +:+ "+OK" +:+ CRLF
    ∧ store w' = <[k := {| Value := v; ExpiryTime := time.Zero |}]> (store w)
    ∧ rPlush w' = rPlush w ∧ blockings w' = blockings w
    ∧ chans w' = chans w ∧ mu w' = mu w.
Proof.
  intros Hc.
  exists (writeSimpleString "OK"
            (set_store <[k := {| Value := v; ExpiryTime := time.Zero |}]> w)).
  split; [|by repeat split].
  unfold dispatch. change (arg [c; k; v; x] 0) with c. rewrite Hc.
  change (handleSet [c; k; v; x] w = Done
            (writeSimpleString "OK"
               (set_store <[k := {| Value := v; ExpiryTime := time.Zero |}]> w))).
  unfold handleSet. change (len [c; k; v; x]) with 4. reflexivity.
Qed.

(** [handleGet] by cases on the entry it finds. *)
Lemma handleGet_cases (c key : string) (w : World) :
  handleGet [c; key] w =
    match store w !! key with
    | None => Done (writeNull w)
    | Some e =>
        match ExpiryTime e with
        | time.At t =>
            if t <? now w then Done (writeNull (set_store (delete key) w))
            else Done (writeBulkString (Value e) w)
        | time.Zero => Done (writeBulkString (Value e) w)
        end
    end.
Proof.
  unfold handleGet, arg. change (negb (len [c; key] =? 2)) with false. cbn [nth].
  destruct (store w !! key) as [e|] eqn:E; cbn [comma_ok negb orb].
  - destruct (ExpiryTime e) as [|t]; [done|].
    rewrite bool_decide_eq_true_2 by done. cbn [andb time.After].
    by destruct (t <? now w).
  - by rewrite set_store_same; [|apply delete_id].
Qed.

(** C7, amended.  GET checks the expiry at read time.  An absent key
    answers the null bulk string.  An entry whose expiry lies before the
    clock reading is deleted and answers the null bulk string.  Any other
    entry is left in the store, in particular one with no expiry, and its
    value is answered: as a bulk string that carries it when it is not
    empty, as the null bulk string when it is empty. *)
Theorem get_lazy_expiry (key : string) (w : World) :
  ∃ w1,
    dispatch ParseFloat ["GET"; key] w = Done w1
    ∧ match store w !! key with
      | None => written (conn w1) = written (conn w) +:+ null ∧ store w1 = store w
      | Some e =>
          match ExpiryTime e with
          | time.At t =>
              if t <? now w
              then written (conn w1) = written (conn w) +:+ null
                   ∧ store w1 = delete key (store w)
              else written (conn w1)
                   = written (conn w) +:+ (if decide (Value e = "") then null
                                           else bulk (Value e))
                   ∧ store w1 = store w
          | time.Zero =>
              written (conn w1)
              = written (conn w) +:+ (if decide (Value e = "") then null
                                      else bulk (Value e))
              ∧ store w1 = store w
          end
      end.
Proof.
  change (dispatch ParseFloat ["GET"; key] w) with (handleGet ["GET"; key] w).
  rewrite handleGet_cases.
  destruct (store w !! key) as [e|]; [|by eexists].
  destruct (ExpiryTime e) as [|t].
  - eexists. split; [reflexivity|]. by rewrite writeBulkString_Write.
  - destruct (t <? now w); eexists; (split; [reflexivity|]); [done|].
    by rewrite writeBulkString_Write.
Qed.

(** C1, amended.  SET k v without PX followed by GET k, at any later
    clock reading, writes the bulk string that carries v when v is not
    empty, and the null bulk string when v is empty. *)
Theorem set_then_get (k v : string) (w : World) (t : Z) :
  ∃ w1,
    dispatch ParseFloat ["SET"; k; v] w = Done w1
    ∧ dispatch ParseFloat ["GET"; k] (set_now t w1)
      = Done (Write (if decide (v = "") then null else bulk v) (set_now t w1)).
Proof.
  exists (writeSimpleString "OK"
            (set_store <[k := {| Value := v; ExpiryTime := time.Zero |}]> w)).
  split; [reflexivity|].
  change (dispatch ParseFloat ["GET"; k] ?x) with (handleGet ["GET"; k] x).
  rewrite handleGet_cases. cbn [store set_now writeSimpleString Write set_conn set_store].
  rewrite lookup_insert_eq. cbn [ExpiryTime Value].
  unfold writeBulkString. by case_decide.
Qed.

(** C9.  A command token whose upper case is none of the supported names
    gets the reply [-ERR unknown command '<name>'], and nothing but the
    connection changes. *)
Theorem unknown_command (name : string) (rest : list string) (w : World) :
  strings.ToUpper name ∉ supported →
  ∃ w',
    dispatch ParseFloat (name :: rest) w = Done w'
    ∧ written (conn w')
      = written (conn w) +:+ "-ERR unknown command '" +:+ name +:+ "'" +:+ CRLF
    ∧ store w' = store w ∧ rPlush w' = rPlush w ∧ blockings w' = blockings w
    ∧ mu w' = mu w ∧ chans w' = chans w.
Proof.
  intros Hname. exists (writeError ("unknown command '" +:+ name +:+ "'") w).
  split; [|split; [|done]].
  2: { unfold writeError. cbn. by rewrite !append_assoc. }
  unfold dispatch, arg. cbn [nth].
  repeat (case_decide as E;
          [exfalso; apply Hname; rewrite E; unfold supported; set_solver|clear E]).
  reflexivity.
Qed.

(** ** LPUSH, RPUSH and the wake-up *)

Lemma at_key_insert {A} (m : gmap string (list A)) key l :
  at_key (<[key := l]> m) key = l.
Proof. unfold at_key. by rewrite lookup_insert_eq. Qed.

Lemma len_cons {A} (x : A) l : len (x :: l) = 1 + len l.
Proof. unfold len. cbn [length]. lia. Qed.

Lemma len_nonneg {A} (l : list A) : 0 ≤ len l.
Proof. unfold len. lia. Qed.

(** The loop of LPUSH leaves the values in front of the list, the last one
    first. *)
Lemma push_front_loop key vals w :
  vals ≠ [] →
  foldl (λ w a, set_rPlush (λ m, <[key := a :: at_key m key]> m) w) w vals
  = set_rPlush <[key := rev vals ++ at_key (rPlush w) key]> w.
Proof.
  revert w. induction vals as [|a vals IH]; intros w Hne; [done|].
  cbn [foldl]. destruct vals as [|b vals]; [done|].
  rewrite IH by done. unfold set_rPlush at 1 2 3. cbn.
  rewrite at_key_insert, insert_insert_eq.
  do 3 f_equal. by rewrite <- !app_assoc.
Qed.

(** The loop of RPUSH leaves the values behind the list, in their order. *)
Lemma push_back_loop key vals w :
  vals ≠ [] →
  foldl (λ w a, set_rPlush (λ m, <[key := at_key m key ++ [a]]> m) w) w vals
  = set_rPlush <[key := at_key (rPlush w) key ++ vals]> w.
Proof.
  revert w. induction vals as [|a vals IH]; intros w Hne; [done|].
  cbn [foldl]. destruct vals as [|b vals]; [done|].
  rewrite IH by done. unfold set_rPlush at 1 2 3. cbn.
  rewrite at_key_insert, insert_insert_eq.
  do 3 f_equal. by rewrite <- !app_assoc.
Qed.

Lemma arity_push {A} (c key : A) vals : vals ≠ [] → (len (c :: key :: vals) <? 3) = false.
Proof.
  intros Hne. destruct vals; [done|]. rewrite !len_cons.
  pose proof (len_nonneg vals). apply Z.ltb_ge. lia.
Qed.

Lemma handleLPush_Done c key vals w :
  vals ≠ [] → mu w = false →
  handleLPush (c :: key :: vals) w =
    let l := rev vals ++ at_key (rPlush w) key in
    Done (set_mu false (writeInteger (len l)
            (wakeUpFirstBlocking key (set_rPlush <[key := l]> (set_mu true w))))).
Proof.
  intros Hne Hmu. unfold handleLPush. rewrite arity_push, Hmu by done.
  unfold arg. cbn [nth drop]. rewrite push_front_loop by done.
  cbn zeta. do 3 f_equal.
  unfold wakeUpFirstBlocking. cbn.
  repeat case_match; cbn; by rewrite at_key_insert.
Qed.

Lemma handleRPush_Done c key vals w :
  vals ≠ [] → mu w = false →
  handleRPush (c :: key :: vals) w =
    let l := at_key (rPlush w) key ++ vals in
    Done (set_mu false (writeInteger (len l)
            (wakeUpFirstBlocking key (set_rPlush <[key := l]> (set_mu true w))))).
Proof.
  intros Hne Hmu. unfold handleRPush. rewrite arity_push, Hmu by done.
  unfold arg. cbn [nth drop]. rewrite push_back_loop by done.
  cbn zeta. do 3 f_equal.
  unfold wakeUpFirstBlocking. cbn.
  repeat case_match; cbn; by rewrite at_key_insert.
Qed.

Lemma wake_rPlush key w : rPlush (wakeUpFirstBlocking key w) = rPlush w.
Proof. unfold wakeUpFirstBlocking. by repeat case_match. Qed.

Lemma wake_conn key w : conn (wakeUpFirstBlocking key w) = conn w.
Proof. unfold wakeUpFirstBlocking. by repeat case_match. Qed.

Lemma wake_blockings key w :
  blockings (wakeUpFirstBlocking key w) =
    match at_key (blockings w) key with
    | [] => blockings w
    | _ :: rest => <[key := rest]> (blockings w)
    end.
Proof.
  unfold wakeUpFirstBlocking, at_key.
  destruct (blockings w !! key) as [[|req rest]|]; cbn; [done| |done].
  by case_match.
Qed.

Lemma wake_chans key w :
  chans (wakeUpFirstBlocking key w) =
    match at_key (blockings w) key with
    | [] => chans w
    | req :: _ =>
        match chans w !! Ch req with
        | None => <[Ch req := key]> (chans w)
        | Some _ => chans w
        end
    end.
Proof.
  unfold wakeUpFirstBlocking, at_key.
  destruct (blockings w !! key) as [[|req rest]|]; cbn; [done| |done].
  by case_match.
Qed.

(** C4.  With the lock free, LPUSH leaves the values in front of the list
    with the last listed value first, RPUSH leaves them at the tail in
    the listed order, and each answers the integer length of the list it
    leaves. *)
Theorem push_order (key : string) (vals : list string) (w : World) :
  vals ≠ [] → mu w = false →
  (∃ w',
      dispatch ParseFloat ("LPUSH" :: key :: vals) w = Done w'
      ∧ rPlush w' = <[key := rev vals ++ at_key (rPlush w) key]> (rPlush w)
      ∧ written (conn w')
        = written (conn w) +:+ ":" +:+ fmt.Sprintf_d (len (at_key (rPlush w') key)) +:+ CRLF)
  ∧ (∃ w',
      dispatch ParseFloat ("RPUSH" :: key :: vals) w = Done w'
      ∧ rPlush w' = <[key := at_key (rPlush w) key ++ vals]> (rPlush w)
      ∧ written (conn w')
        = written (conn w) +:+ ":" +:+ fmt.Sprintf_d (len (at_key (rPlush w') key)) +:+ CRLF).
Proof.
  intros Hne Hmu. split.
  - change (dispatch ParseFloat ("LPUSH" :: key :: vals) w)
      with (handleLPush ("LPUSH" :: key :: vals) w).
    rewrite handleLPush_Done by done. eexists. split; [reflexivity|].
    cbn. rewrite wake_rPlush, wake_conn. cbn. by rewrite at_key_insert.
  - change (dispatch ParseFloat ("RPUSH" :: key :: vals) w)
      with (handleRPush ("RPUSH" :: key :: vals) w).
    rewrite handleRPush_Done by done. eexists. split; [reflexivity|].
    cbn. rewrite wake_rPlush, wake_conn. cbn. by rewrite at_key_insert.
Qed.

(** ** The waiter queues *)

Lemma woken_wake key w w1 w' :
  blockings w1 = blockings w → chans w1 = chans w →
  blockings w' = blockings (wakeUpFirstBlocking key w1) →
  chans w' = chans (wakeUpFirstBlocking key w1) →
  woken key w w'.
Proof.
  unfold woken. intros Eb Ec -> ->. rewrite wake_blockings, wake_chans, Eb, Ec.
  by destruct (at_key (blockings w) key).
Qed.

Lemma handleBLPop_wait c key t timeout w :
  mu w = false → at_key (rPlush w) key = [] → ParseFloat t = Some timeout →
  handleBLPop ParseFloat [c; key; t] w =
    let req :=
      {| Key := key; Ch := next_chan w;
         Timeout := float64.to_int64 (float64.mul timeout (float64.of_Z time.Second)) |} in
    ChanWait
      (set_blockings <[key := at_key (blockings w) key ++ [req]]>
         (set_next_chan (S (next_chan w)) w))
      req (float64.eqb timeout (S754_zero false)).
Proof.
  intros Hmu Hl Ht. unfold handleBLPop. cbn [len length Z.of_nat].
  rewrite Hmu. unfold arg. cbn [nth negb Z.eqb Pos.eqb]. cbn -[float64.to_int64 float64.mul].
  unfold at_key in Hl. rewrite Ht.
  destruct (rPlush w !! key) as [[|x l]|]; [| discriminate Hl |];
    cbn -[float64.to_int64 float64.mul]; f_equal;
    unfold set_blockings, set_next_chan, set_mu; cbn; by rewrite <- Hmu.
Qed.

Lemma handleBLPop_error c key t w :
  mu w = false → at_key (rPlush w) key = [] → ParseFloat t = None →
  handleBLPop ParseFloat [c; key; t] w =
    Done (writeError "timeout must be a number" (set_mu true w)).
Proof.
  intros Hmu Hl Ht. unfold handleBLPop. cbn [len length Z.of_nat].
  rewrite Hmu. unfold arg. cbn [nth negb Z.eqb Pos.eqb]. cbn.
  unfold at_key in Hl. rewrite Ht.
  by destruct (rPlush w !! key) as [[|x l]|]; [| discriminate Hl |].
Qed.

(** C8.  With the lock free, a push returns without waiting, takes at
    most the head waiter of the key off its queue however many values it
    pushed, and offers that waiter one signal that is skipped when its
    channel cannot take it; and BLPOP on an empty list queues its waiter
    behind those already waiting, so the queue is served in the order of
    arrival. *)
Theorem push_wakes_head (key : string) (vals : list string) (w : World) :
  vals ≠ [] → mu w = false →
  (∃ w', dispatch ParseFloat ("LPUSH" :: key :: vals) w = Done w' ∧ woken key w w')
  ∧ (∃ w', dispatch ParseFloat ("RPUSH" :: key :: vals) w = Done w' ∧ woken key w w')
  ∧ (∀ t timeout,
       at_key (rPlush w) key = [] → ParseFloat t = Some timeout →
       ∃ w' req forever,
         dispatch ParseFloat ["BLPOP"; key; t] w = ChanWait w' req forever
         ∧ blockings w' = <[key := at_key (blockings w) key ++ [req]]> (blockings w)).
Proof.
  intros Hne Hmu. split; [|split].
  - change (dispatch ParseFloat ("LPUSH" :: key :: vals) w)
      with (handleLPush ("LPUSH" :: key :: vals) w).
    rewrite handleLPush_Done by done. eexists. split; [reflexivity|].
    eapply (woken_wake key w (set_rPlush _ (set_mu true w))); reflexivity.
  - change (dispatch ParseFloat ("RPUSH" :: key :: vals) w)
      with (handleRPush ("RPUSH" :: key :: vals) w).
    rewrite handleRPush_Done by done. eexists. split; [reflexivity|].
    eapply (woken_wake key w (set_rPlush _ (set_mu true w))); reflexivity.
  - intros t timeout Hl Ht.
    change (dispatch ParseFloat ["BLPOP"; key; t] w)
      with (handleBLPop ParseFloat ["BLPOP"; key; t] w).
    rewrite (handleBLPop_wait _ _ _ timeout) by done.
    by do 3 eexists.
Qed.

(** A waiter whose timer fires takes itself out of the queue of its key
    and leaves the others in their order. *)
Lemma blpop_timeout_keeps_order (req : BlockingRequest) (w : World) :
  mu w = false →
  ∃ w' q,
    handleBLPop_timeout req w = Done w'
    ∧ blockings w' = <[Key req := q]> (blockings w)
    ∧ q `sublist_of` at_key (blockings w) (Key req)
    ∧ (∀ r, r ∈ q ↔ r ∈ at_key (blockings w) (Key req) ∧ Ch r ≠ Ch req)
    ∧ written (conn w') = written (conn w) +:+ null.
Proof.
  intros Hmu. unfold handleBLPop_timeout. rewrite Hmu.
  eexists _, _. split; [reflexivity|]. split; [reflexivity|].
  split; [apply sublist_filter|]. split; [|reflexivity].
  intros r. rewrite list_elem_of_filter. tauto.
Qed.

(** On a list that is not empty BLPOP pops the head and answers at once;
    the timeout is not looked at. *)
Lemma blpop_fast_path (key t value : string) (rest : list string) (w : World) :
  mu w = false → rPlush w !! key = Some (value :: rest) →
  ∃ w',
    dispatch ParseFloat ["BLPOP"; key; t] w = Done w'
    ∧ rPlush w' = <[key := rest]> (rPlush w)
    ∧ written (conn w')
      = written (conn (writeBulkString value (writeBulkString key (Write ("*2" +:+ CRLF) w))))
    ∧ blockings w' = blockings w ∧ mu w' = false.
Proof.
  intros Hmu Hl.
  change (dispatch ParseFloat ["BLPOP"; key; t] w)
    with (handleBLPop ParseFloat ["BLPOP"; key; t] w).
  unfold handleBLPop, arg. change (negb (len ["BLPOP"; key; t] =? 3)) with false.
  rewrite Hmu. cbn [nth rPlush set_mu]. rewrite Hl.
  eexists. split; [reflexivity|].
  unfold writeBulkString. by repeat case_decide.
Qed.

(** C2, amended.  On an empty or absent list, with the lock free, BLPOP
    with a timeout that does not parse answers a command error, pops
    nothing and queues no waiter: the key/value store, the lists, the
    waiter queues and the channels are as before. *)
Theorem blpop_bad_timeout (key t : string) (w : World) :
  ParseFloat t = None → at_key (rPlush w) key = [] → mu w = false →
  ∃ w',
    dispatch ParseFloat ["BLPOP"; key; t] w = Done w'
    ∧ written (conn w') = written (conn w) +:+ "-ERR timeout must be a number" +:+ CRLF
    ∧ store w' = store w ∧ rPlush w' = rPlush w ∧ blockings w' = blockings w
    ∧ chans w' = chans w ∧ next_chan w' = next_chan w.
Proof.
  intros Ht Hl Hmu.
  change (dispatch ParseFloat ["BLPOP"; key; t] w)
    with (handleBLPop ParseFloat ["BLPOP"; key; t] w).
  rewrite handleBLPop_error by done. eexists. split; [reflexivity|].
  by repeat split.
Qed.

(** The return of [handleBLPop] on a bad timeout skips [mu.Unlock()]: the
    lock stays held, and the next push waits for it. *)
Lemma blpop_bad_timeout_keeps_lock (key t : string) (vals : list string) (w : World) :
  ParseFloat t = None → at_key (rPlush w) key = [] → mu w = false → vals ≠ [] →
  ∃ w',
    dispatch ParseFloat ["BLPOP"; key; t] w = Done w'
    ∧ mu w' = true
    ∧ dispatch ParseFloat ("LPUSH" :: key :: vals) w' = LockWait.
Proof.
  intros Ht Hl Hmu Hne.
  change (dispatch ParseFloat ["BLPOP"; key; t] w)
    with (handleBLPop ParseFloat ["BLPOP"; key; t] w).
  rewrite handleBLPop_error by done. eexists. split; [reflexivity|].
  split; [done|].
  change (dispatch ParseFloat ("LPUSH" :: key :: vals) ?x)
    with (handleLPush ("LPUSH" :: key :: vals) x).
  unfold handleLPush. by rewrite arity_push.
Qed.

(** ** LRANGE and LPOP *)

Lemma len_0_nil {A} (l : list A) : len l = 0 → l = [].
Proof. unfold len. destruct l; [done|]. cbn [length]. lia. Qed.

Lemma slice_nil {A} (lo hi : Z) : slice (@nil A) lo hi = [].
Proof. unfold slice. by rewrite drop_nil, take_nil. Qed.

Lemma handleLRange_spec (c key a b : string) (start end_ : Z) (w : World) :
  strconv.Atoi a = Some start → strconv.Atoi b = Some end_ →
  handleLRange [c; key; a; b] w =
    Done (write_array (LRANGE_spec (at_key (rPlush w) key) start end_) w).
Proof.
  intros Ha Hb. unfold handleLRange, arg.
  change (negb (len [c; key; a; b] =? 4)) with false. cbn [nth]. rewrite Ha, Hb.
  generalize (at_key (rPlush w) key). intros l.
  pose proof (len_nonneg l) as Hn. pose proof (len_0_nil l) as Hnil.
  unfold LRANGE_spec, from_end. cbn zeta.
  remember (len l) as n eqn:En. clear En.
  by_cases; cbn [orb]; try lia; try reflexivity;
    try (rewrite Hnil by lia; by rewrite ?slice_nil);
    unfold write_array;
    match goal with
    | |- Done (writeBulkStrings ?x _) = Done (writeBulkStrings ?y _) =>
        replace x with y by (unfold slice; do 3 f_equal; lia)
    end; reflexivity.
Qed.

Lemma slice_to_end {A} (l : list A) (lo : Z) :
  0 ≤ lo → slice l lo (len l) = drop (Z.to_nat lo) l.
Proof.
  intros Hlo. unfold slice, len. apply take_ge. rewrite length_drop. lia.
Qed.

(** The elements of a slice in bounds are those of the list from [lo] up
    to, and without, [hi], in their order. *)
Lemma slice_lookup {A} (l : list A) (lo hi : Z) (i : nat) :
  0 ≤ lo → hi ≤ len l →
  slice l lo hi !! i = if decide (Z.of_nat i < hi - lo) then l !! (Z.to_nat lo + i)%nat else None.
Proof.
  intros Hlo Hhi. unfold slice. case_decide as Hi.
  - rewrite lookup_take_lt by lia. apply lookup_drop.
  - apply lookup_take_ge. lia.
Qed.

(** The bounds of the slice expression of [handleLRange] are in range
    whenever the handler gets to it. *)
Lemma lrange_in_bounds (n start end_ : Z) :
  0 ≤ n →
  let s := from_end n start in
  let e := from_end n end_ in
  (n <=? s) || (e <? s) = false →
  let e' := if n <=? e then n - 1 else e in
  0 ≤ s ≤ e' + 1 ∧ e' + 1 ≤ n.
Proof.
  intros Hn s e. unfold s, e, from_end. by_cases; cbn [orb]; intros; try done; lia.
Qed.

(** So are those of [handleLPop], which slices at the count, or at 1, a
    list that is not empty. *)
Lemma lpop_in_bounds (c : string) (n : Z) : 0 < n → 1 ≤ LPOP_count c n ≤ n.
Proof.
  intros Hn. unfold LPOP_count. destruct (strconv.Atoi c) as [k|]; by_cases; lia.
Qed.

(** The loop [for i := 0; i < count; i++ { writeBulkString(conn, list[i]) }]. *)
Lemma write_indexed (l : list string) (j k : nat) (w : World) :
  (j + k ≤ length l)%nat →
  foldl (λ w i, writeBulkString (nth i l "") w) w (seq j k)
  = writeBulkStrings (take k (drop j l)) w.
Proof.
  revert j w. induction k as [|k IH]; intros j w Hk; [done|].
  cbn [seq foldl]. rewrite IH by lia.
  destruct (lookup_lt_is_Some_2 l j) as [x Hx]; [lia|].
  rewrite (drop_S _ _ _ Hx). cbn [take]. unfold writeBulkStrings. cbn [foldl].
  by rewrite nth_lookup, Hx.
Qed.

(** [handleLPop] with a count, by cases on the list. *)
Lemma handleLPop_count (c key n : string) (w : World) :
  handleLPop [c; key; n] w =
    match at_key (rPlush w) key with
    | [] => Done (writeNull w)
    | l =>
        let k := Z.to_nat (LPOP_count n (len l)) in
        Done (write_array (take k l) (set_rPlush <[key := drop k l]> w))
    end.
Proof.
  unfold handleLPop, arg. change (len [c; key; n] <? 2) with false.
  change (len [c; key; n] =? 3) with true. cbn [nth].
  destruct (at_key (rPlush w) key) as [|x l'] eqn:El; [done|].
  remember (x :: l') as l eqn:Hl.
  assert (0 < len l) as Hpos by (rewrite Hl, len_cons; pose proof (len_nonneg l'); lia).
  destruct (Z.eqb_spec (len l) 0) as [?|_]; [lia|].
  pose proof (lpop_in_bounds n (len l) Hpos) as Hk.
  assert ((if len l <?
              match strconv.Atoi n with
              | Some count => if count <=? 0 then 1 else count
              | None => 1
              end
           then len l
           else match strconv.Atoi n with
                | Some count => if count <=? 0 then 1 else count
                | None => 1
                end) = LPOP_count n (len l)) as ->.
  { unfold LPOP_count. cbn zeta. by_cases; lia. }
  rewrite slice_to_end by lia. cbn zeta.
  rewrite write_indexed by (cbn [plus]; unfold len in *; lia).
  rewrite drop_0. unfold write_array.
  replace (len (take (Z.to_nat (LPOP_count n (len l))) l)) with (LPOP_count n (len l));
    [by subst l|].
  unfold len at 2. rewrite length_take. unfold len in *. lia.
Qed.

(** [handleLPop] without a count. *)
Lemma handleLPop_single (c key : string) (w : World) :
  handleLPop [c; key] w =
    match at_key (rPlush w) key with
    | [] => Done (writeNull w)
    | x :: rest => Done (writeBulkString x (set_rPlush <[key := rest]> w))
    end.
Proof.
  unfold handleLPop, arg. change (len [c; key] <? 2) with false.
  change (len [c; key] =? 3) with false. cbn [nth].
  destruct (at_key (rPlush w) key) as [|x l'] eqn:El; [done|].
  assert (0 < len (x :: l')) as Hl by (rewrite len_cons; pose proof (len_nonneg l'); lia).
  destruct (Z.eqb_spec (len (x :: l')) 0) as [?|_]; [lia|].
  rewrite slice_to_end by lia. reflexivity.
Qed.

(** The elements [LRANGE_spec] selects, one by one. *)
Lemma LRANGE_spec_lookup (l : list string) (start end_ : Z) :
  let n := len l in
  let counted i := if i <? 0 then n + i else i in
  let clamped i := 0 `max` ((n - 1) `min` counted i) in
  if (clamped end_ <? clamped start) || (n <=? counted start)
  then LRANGE_spec l start end_ = []
  else ∀ i : nat,
      LRANGE_spec l start end_ !! i
      = if decide (clamped start + Z.of_nat i ≤ clamped end_)
        then l !! (Z.to_nat (clamped start) + i)%nat else None.
Proof.
  intros n counted clamped. subst clamped counted. unfold LRANGE_spec. cbn zeta beta.
  fold n. destruct (_ || _) eqn:Hc; [done|].
  apply orb_false_elim in Hc as [Hc1%Z.ltb_ge Hc2%Z.leb_gt]. intros i.
  destruct (Z.eq_dec n 0) as [H0|Hn].
  - rewrite (len_0_nil l H0), slice_nil, !lookup_nil. by case_decide.
  - pose proof (len_nonneg l) as Hl. fold n in Hl.
    rewrite slice_lookup by (fold n; lia).
    repeat case_decide; (done || lia).
Qed.

(** C5, amended.  LRANGE with integer bounds answers an array.  Negative
    indices count from the end of the list and both bounds are clamped
    into [[0, length - 1]].  The array is empty when the clamped start
    exceeds the clamped end or the start is past the end of the list;
    otherwise its i-th element is the element of the list at the clamped
    start plus i, up to the clamped end.  Each element is written as a
    bulk string that carries it, an empty one as the null bulk string.
    The lists are left as they are. *)
Theorem lrange_clamped (key a b : string) (start end_ : Z) (w : World) :
  strconv.Atoi a = Some start → strconv.Atoi b = Some end_ →
  let l := at_key (rPlush w) key in
  let n := len l in
  let counted i := if i <? 0 then n + i else i in
  let clamped i := 0 `max` ((n - 1) `min` counted i) in
  ∃ items w1,
    dispatch ParseFloat ["LRANGE"; key; a; b] w = Done w1
    ∧ written (conn w1)
      = written (conn w) +:+ "*" +:+ fmt.Sprintf_d (len items) +:+ CRLF
        +:+ foldr (λ s acc, (if decide (s = "") then null else bulk s) +:+ acc) "" items
    ∧ rPlush w1 = rPlush w
    ∧ if (clamped end_ <? clamped start) || (n <=? counted start)
      then items = []
      else ∀ i : nat,
          items !! i
          = if decide (clamped start + Z.of_nat i ≤ clamped end_)
            then l !! (Z.to_nat (clamped start) + i)%nat else None.
Proof.
  intros Ha Hb l n counted clamped.
  exists (LRANGE_spec l start end_), (Write (encode_array (LRANGE_spec l start end_)) w).
  split.
  { change (dispatch ParseFloat ["LRANGE"; key; a; b] w)
      with (handleLRange ["LRANGE"; key; a; b] w).
    by rewrite (handleLRange_spec _ _ _ _ start end_), write_array_Write. }
  split; [reflexivity|]. split; [reflexivity|]. apply LRANGE_spec_lookup.
Qed.

(** C6, amended.  LPOP on an empty or absent list answers the null bulk
    string and changes no list.  On a list that is not empty, LPOP with a
    count takes [LPOP_count] elements, at least one, off the head and
    answers them as an array in their order, and LPOP without a count
    takes the head off and answers it alone.  An element is written as a
    bulk string that carries it, an empty one as the null bulk string. *)
Theorem lpop_head (key c : string) (w : World) :
  let l := at_key (rPlush w) key in
  let k := Z.to_nat (LPOP_count c (len l)) in
  ∃ w1 w2,
    dispatch ParseFloat ["LPOP"; key; c] w = Done w1
    ∧ dispatch ParseFloat ["LPOP"; key] w = Done w2
    ∧ match l with
      | [] =>
          written (conn w1) = written (conn w) +:+ null ∧ rPlush w1 = rPlush w
          ∧ written (conn w2) = written (conn w) +:+ null ∧ rPlush w2 = rPlush w
      | x :: rest =>
          (1 ≤ k ≤ length l)%nat
          ∧ written (conn w1)
            = written (conn w) +:+ "*" +:+ fmt.Sprintf_d (Z.of_nat k) +:+ CRLF
              +:+ foldr (λ s acc, (if decide (s = "") then null else bulk s) +:+ acc) ""
                    (take k l)
          ∧ rPlush w1 = <[key := drop k l]> (rPlush w)
          ∧ written (conn w2)
            = written (conn w) +:+ (if decide (x = "") then null else bulk x)
          ∧ rPlush w2 = <[key := rest]> (rPlush w)
      end.
Proof.
  intros l k.
  change (dispatch ParseFloat ["LPOP"; key; c] w) with (handleLPop ["LPOP"; key; c] w).
  change (dispatch ParseFloat ["LPOP"; key] w) with (handleLPop ["LPOP"; key] w).
  rewrite handleLPop_count, handleLPop_single. subst k l.
  destruct (at_key (rPlush w) key) as [|x rest]; [by do 2 eexists|].
  set (l := x :: rest).
  assert (0 < len l) as Hl by (unfold l; rewrite len_cons; pose proof (len_nonneg rest); lia).
  pose proof (lpop_in_bounds c (len l) Hl) as Hk.
  set (k := Z.to_nat (LPOP_count c (len l))).
  assert (1 ≤ k ≤ length l)%nat as Hk' by (unfold k, len in *; lia).
  exists (write_array (take k l) (set_rPlush <[key := drop k l]> w)),
    (writeBulkString x (set_rPlush <[key := rest]> w)).
  split; [reflexivity|]. split; [reflexivity|]. split; [done|].
  rewrite write_array_Write, writeBulkString_Write. unfold encode_array.
  replace (len (take k l)) with (Z.of_nat k)
    by (unfold len; rewrite length_take; lia).
  repeat split; reflexivity.
Qed.

(** ** Read failures *)

Lemma drained_id (w : World) : pending (conn w) = [] → drained w = w.
Proof. destruct w as [? ? ? ? ? ? ? []]. cbn. by intros ->. Qed.

(** A frame cut short: the loop of [parseArgs] hands the reader's error
    on as it is and writes nothing. *)
Lemma parseArgs_loop_cut (n : nat) (args : list string) (w : World) :
  (length (pending (conn w)) < 2 * n)%nat →
  parseArgs_loop n args w = (inr (read_err (conn w)), drained w).
Proof.
  revert args w. induction n as [|n IH]; intros args w Hlen; [lia|].
  cbn [parseArgs_loop]. unfold ReadString at 1.
  destruct (pending (conn w)) as [|x xs] eqn:E; [by rewrite drained_id|].
  unfold ReadString. cbn [pending conn set_conn].
  destruct xs as [|y ys]; [reflexivity|].
  rewrite IH; [reflexivity|]. cbn [pending conn set_conn].
  cbn [length] in Hlen. lia.
Qed.

(** The same for [parseArgs] as a whole: the peer closes before the
    first line, or after a header that announces more than arrives. *)
Lemma parseArgs_cut (w : World) :
  match pending (conn w) with
  | [] => True
  | line :: rest =>
      let line := strings.TrimSpace line in
      line ≠ "" ∧ strings.HasPrefix line "*" = true
      ∧ (length rest < 2 * Z.to_nat (parseLength line))%nat
  end →
  parseArgs w = (inr (read_err (conn w)), drained w).
Proof.
  unfold parseArgs, ReadString at 1.
  destruct (pending (conn w)) as [|line rest] eqn:E.
  - intros _. by rewrite drained_id.
  - cbn zeta. intros (Hne & Hpre & Hlen).
    rewrite bool_decide_eq_false_2, Hpre by done. cbn [orb negb].
    by rewrite parseArgs_loop_cut.
Qed.

(** Whatever error [parseArgs] returns, [HandleConnection] writes it to
    the connection and goes round again. *)
Lemma HandleConnection_body_error (w w1 : World) (e : error) :
  parseArgs w = (inr e, w1) →
  HandleConnection_body ParseFloat w = Done (writeError (Error e) w1).
Proof. unfold HandleConnection_body. by intros ->. Qed.

(** On a connection with nothing left to read, every round of the loop
    writes one more error reply; the loop never comes to an end. *)
Lemma HandleConnection_spins (n : nat) (w : World) :
  pending (conn w) = [] →
  HandleConnection ParseFloat n w
  = Done (Write (copies n ("-ERR " +:+ Error (read_err (conn w)) +:+ CRLF)) w).
Proof.
  revert w. induction n as [|n IH]; intros w Hw; cbn [HandleConnection copies].
  - by rewrite Write_empty.
  - rewrite (HandleConnection_body_error w w (read_err (conn w))).
    + rewrite IH by done.
      change (read_err (conn (writeError ?m w))) with (read_err (conn w)).
      unfold writeError. by rewrite Write_Write.
    + by rewrite parseArgs_cut, drained_id; [| |rewrite Hw].
Qed.

(** C3 fails on the code.  A client sends the header of a two-element
    frame and one more line, and closes the connection.  [parseArgs]
    hands the reader's error on as it is and writes nothing; but
    [HandleConnection] answers it with an error reply, and after any
    number of further rounds it is still running, one more error reply
    written in each. *)
Theorem read_failure_answered_and_looping (n : nat) :
  let w := boot ["*2" +:+ CRLF; "$3" +:+ CRLF] in
  parseArgs w = (inr (ReadError "EOF"), drained w)
  ∧ HandleConnection_body ParseFloat w = Done (Write ("-ERR EOF" +:+ CRLF) (drained w))
  ∧ HandleConnection ParseFloat (S n) w
    = Done (Write (copies (S n) ("-ERR EOF" +:+ CRLF)) (drained w)).
Proof.
  intros w.
  assert (HandleConnection_body ParseFloat w
          = Done (Write ("-ERR EOF" +:+ CRLF) (drained w))) as Hbody by reflexivity.
  split; [reflexivity|]. split; [exact Hbody|].
  change (HandleConnection ParseFloat (S n) w)
    with (match HandleConnection_body ParseFloat w with
          | Done w => HandleConnection ParseFloat n w
          | parked => parked
          end).
  rewrite Hbody, HandleConnection_spins by reflexivity.
  cbn [copies]. by rewrite Write_Write.
Qed.

End Properties.

(** * The properties at work *)

(** C1, as stated, fails for the empty value: GET then writes the null bulk
    string, the very bytes it writes for an absent key, and not a bulk
    string that carries the value. *)
Lemma set_get_empty_value :
  dispatch strconv.ParseFloat_decimal ["SET"; "k"; ""] (boot []) = Done after_set_empty
  ∧ dispatch strconv.ParseFloat_decimal ["GET"; "k"] after_set_empty
    = Done (Write null after_set_empty)
  ∧ dispatch strconv.ParseFloat_decimal ["GET"; "absent"] after_set_empty
    = Done (Write null after_set_empty)
  ∧ Done (Write null after_set_empty) ≠ Done (Write (bulk "") after_set_empty).
Proof.
  split; [reflexivity|]. split; [reflexivity|]. split; [reflexivity|].
  intros E. discriminate E.
Qed.

Lemma set_four_arguments_witness :
  ∃ w',
    dispatch strconv.ParseFloat_decimal ["set"; "k"; "v"; "px"] (boot []) = Done w'
    ∧ written (conn w') = written (conn (boot [])) +:+ "+OK" +:+ CRLF
    ∧ store w' = <["k" := {| Value := "v"; ExpiryTime := time.Zero |}]> (store (boot []))
    ∧ rPlush w' = rPlush (boot []) ∧ blockings w' = blockings (boot [])
    ∧ chans w' = chans (boot []) ∧ mu w' = mu (boot []).
Proof.
  apply (set_four_arguments strconv.ParseFloat_decimal "set" "k" "v" "px" (boot [])).
  reflexivity.
Defined.

Lemma unknown_command_witness :
  ∃ w',
    dispatch strconv.ParseFloat_decimal ["FOO"; "k"] (boot []) = Done w'
    ∧ written (conn w')
      = written (conn (boot [])) +:+ "-ERR unknown command '" +:+ "FOO" +:+ "'" +:+ CRLF
    ∧ store w' = store (boot []) ∧ rPlush w' = rPlush (boot [])
    ∧ blockings w' = blockings (boot [])
    ∧ mu w' = mu (boot []) ∧ chans w' = chans (boot []).
Proof.
  apply (unknown_command strconv.ParseFloat_decimal "FOO" ["k"] (boot [])).
  apply (bool_decide_unpack _). vm_compute. exact I.
Defined.

Lemma push_order_witness :
  (∃ w',
      dispatch strconv.ParseFloat_decimal ["LPUSH"; "mylist"; "a"; "b"; "c"] (boot [])
      = Done w'
      ∧ rPlush w' = <["mylist" := ["c"; "b"; "a"]]> ∅
      ∧ written (conn w') = ":3" +:+ CRLF)
  ∧ (∃ w',
      dispatch strconv.ParseFloat_decimal ["RPUSH"; "mylist"; "a"; "b"; "c"] (boot [])
      = Done w'
      ∧ rPlush w' = <["mylist" := ["a"; "b"; "c"]]> ∅
      ∧ written (conn w') = ":3" +:+ CRLF).
Proof.
  destruct (push_order strconv.ParseFloat_decimal "mylist" ["a"; "b"; "c"] (boot []))
    as [(w1 & E1 & L1 & W1) (w2 & E2 & L2 & W2)]; [done|reflexivity|].
  split; [exists w1|exists w2]; (split; [assumption|]); (split; [assumption|]).
  - rewrite W1, L1. reflexivity.
  - rewrite W2, L2. reflexivity.
Defined.

Lemma push_wakes_head_witness :
  (∃ w', dispatch strconv.ParseFloat_decimal ["LPUSH"; "jobs"; "task1"; "task2"] two_waiters
         = Done w' ∧ woken "jobs" two_waiters w')
  ∧ (∃ w', dispatch strconv.ParseFloat_decimal ["RPUSH"; "jobs"; "task1"; "task2"] two_waiters
           = Done w' ∧ woken "jobs" two_waiters w')
  ∧ (∃ w' req forever,
       dispatch strconv.ParseFloat_decimal ["BLPOP"; "jobs"; "0.2"] two_waiters
       = ChanWait w' req forever
       ∧ blockings w'
         = <["jobs" := at_key (blockings two_waiters) "jobs" ++ [req]]>
             (blockings two_waiters)).
Proof.
  destruct (push_wakes_head strconv.ParseFloat_decimal "jobs" ["task1"; "task2"] two_waiters)
    as (Hl & Hr & Hb); [done|reflexivity|].
  split; [exact Hl|]. split; [exact Hr|].
  apply (Hb "0.2" (S754_finite false 7205759403792794 (-55))); vm_compute; reflexivity.
Defined.

Lemma blpop_bad_timeout_witness :
  ∃ w',
    dispatch strconv.ParseFloat_decimal ["BLPOP"; "jobs"; "soon"] two_waiters = Done w'
    ∧ written (conn w')
      = written (conn two_waiters) +:+ "-ERR timeout must be a number" +:+ CRLF
    ∧ store w' = store two_waiters ∧ rPlush w' = rPlush two_waiters
    ∧ blockings w' = blockings two_waiters
    ∧ chans w' = chans two_waiters ∧ next_chan w' = next_chan two_waiters.
Proof.
  apply (blpop_bad_timeout strconv.ParseFloat_decimal "jobs" "soon" two_waiters);
    reflexivity.
Defined.

(** C2, as stated, fails on a list that is not empty: the element is popped
    and sent before the timeout is looked at, and no error is written. *)
Lemma blpop_bad_timeout_pops :
  strconv.ParseFloat_decimal "soon" = None
  ∧ at_key (rPlush one_job) "jobs" = ["task1"]
  ∧ ∃ w',
      dispatch strconv.ParseFloat_decimal ["BLPOP"; "jobs"; "soon"] one_job = Done w'
      ∧ at_key (rPlush w') "jobs" = []
      ∧ rPlush w' ≠ rPlush one_job
      ∧ written (conn w') = "*2" +:+ CRLF +:+ bulk "jobs" +:+ bulk "task1".
Proof.
  split; [reflexivity|]. split; [reflexivity|].
  eexists. split; [reflexivity|]. split; [reflexivity|]. split; [|reflexivity].
  intros E. apply (f_equal (λ m, m !! "jobs")) in E. vm_compute in E. discriminate E.
Qed.

Lemma lrange_clamped_witness :
  let l := at_key (rPlush three_items) "mylist" in
  let n := len l in
  let counted i := if i <? 0 then n + i else i in
  let clamped i := 0 `max` ((n - 1) `min` counted i) in
  ∃ items w1,
    dispatch strconv.ParseFloat_decimal ["LRANGE"; "mylist"; "-2"; "10"] three_items
    = Done w1
    ∧ written (conn w1)
      = written (conn three_items) +:+ "*" +:+ fmt.Sprintf_d (len items) +:+ CRLF
        +:+ foldr (λ s acc, (if decide (s = "") then null else bulk s) +:+ acc) "" items
    ∧ rPlush w1 = rPlush three_items
    ∧ if (clamped 10%Z <? clamped (-2)%Z) || (n <=? counted (-2)%Z)
      then items = []
      else ∀ i : nat,
          items !! i
          = if decide (clamped (-2)%Z + Z.of_nat i ≤ clamped 10%Z)
            then l !! (Z.to_nat (clamped (-2)%Z) + i)%nat else None.
Proof.
  apply (lrange_clamped strconv.ParseFloat_decimal "mylist" "-2" "10" (-2) 10 three_items);
    vm_compute; reflexivity.
Defined.

(** C5, as stated, fails on a list with an empty element: LRANGE writes
    the null bulk string in its place, and not a bulk string that carries
    the element. *)
Lemma lrange_empty_element :
  ∃ w0 w1,
    dispatch strconv.ParseFloat_decimal ["RPUSH"; "mylist"; ""; "b"] (boot []) = Done w0
    ∧ at_key (rPlush w0) "mylist" = [""; "b"]
    ∧ dispatch strconv.ParseFloat_decimal ["LRANGE"; "mylist"; "0"; "-1"] w0 = Done w1
    ∧ written (conn w1)
      = written (conn w0) +:+ "*2" +:+ CRLF +:+ null +:+ bulk "b"
    ∧ written (conn w1)
      ≠ written (conn w0) +:+ "*2" +:+ CRLF +:+ bulk "" +:+ bulk "b".
Proof.
  do 2 eexists. split; [reflexivity|]. split; [reflexivity|]. split; [reflexivity|].
  split; [reflexivity|]. vm_compute. intros E. discriminate E.
Qed.

(** C6, as stated, fails on a list whose head is empty: LPOP takes the
    head off and writes the null bulk string, the very bytes it writes
    for an absent list, and not a bulk string that carries the head. *)
Lemma lpop_empty_head :
  ∃ w0 w1,
    dispatch strconv.ParseFloat_decimal ["RPUSH"; "mylist"; ""; "b"] (boot []) = Done w0
    ∧ at_key (rPlush w0) "mylist" = [""; "b"]
    ∧ dispatch strconv.ParseFloat_decimal ["LPOP"; "mylist"] w0 = Done w1
    ∧ at_key (rPlush w1) "mylist" = ["b"]
    ∧ written (conn w1) = written (conn w0) +:+ null
    ∧ written (conn w1) ≠ written (conn w0) +:+ bulk ""
    ∧ dispatch strconv.ParseFloat_decimal ["LPOP"; "absent"] w0 = Done (Write null w0).
Proof.
  do 2 eexists. split; [reflexivity|]. split; [reflexivity|]. split; [reflexivity|].
  split; [reflexivity|]. split; [reflexivity|]. split; [|reflexivity].
  vm_compute. intros E. discriminate E.
Qed.

(** C7, as stated, fails on an entry whose value is empty: GET finds the
    entry, not expired, and writes the null bulk string, the very bytes
    it writes for an absent key, and not the value. *)
Lemma get_empty_value :
  ∃ w0 w1,
    dispatch strconv.ParseFloat_decimal ["SET"; "k"; ""; "PX"; "100"] (boot []) = Done w0
    ∧ store w0 !! "k" = Some {| Value := ""; ExpiryTime := time.At 100000000 |}
    ∧ dispatch strconv.ParseFloat_decimal ["GET"; "k"] w0 = Done w1
    ∧ store w1 = store w0
    ∧ written (conn w1) = written (conn w0) +:+ null
    ∧ written (conn w1) ≠ written (conn w0) +:+ bulk ""
    ∧ dispatch strconv.ParseFloat_decimal ["GET"; "absent"] w0 = Done (Write null w0).
Proof.
  do 2 eexists. split; [reflexivity|]. split; [reflexivity|]. split; [reflexivity|].
  split; [reflexivity|]. split; [reflexivity|]. split; [|reflexivity].
  vm_compute. intros E. discriminate E.
Qed.

Example lrange_all :
  reply (dispatch strconv.ParseFloat_decimal ["LRANGE"; "mylist"; "0"; "-1"] three_items)
  = "*3" +:+ CRLF +:+ bulk "a" +:+ bulk "b" +:+ bulk "c".
Proof. vm_compute. reflexivity. Qed.

Example lrange_past_the_end :
  reply (dispatch strconv.ParseFloat_decimal ["LRANGE"; "mylist"; "5"; "10"] three_items)
  = "*0" +:+ CRLF.
Proof. vm_compute. reflexivity. Qed.

Example lpop_two :
  ∃ w',
    dispatch strconv.ParseFloat_decimal ["LPOP"; "mylist"; "2"] three_items = Done w'
    ∧ written (conn w') = "*2" +:+ CRLF +:+ bulk "a" +:+ bulk "b"
    ∧ at_key (rPlush w') "mylist" = ["c"].
Proof. eexists. split; [vm_compute; reflexivity|]. split; vm_compute; reflexivity. Qed.

(** ** Sessions *)

(** The test scenarios of the specification, as sessions of one client
    served by [HandleConnection]: the frames are decoded by [parseArgs] and
    the replies are the bytes written to the connection. *)

Example session_set_get :
  reply (HandleConnection strconv.ParseFloat_decimal 2
           (boot (frame ["SET"; "k"; "v"] ++ frame ["get"; "k"])))
  = "+OK" +:+ CRLF +:+ bulk "v".
Proof. vm_compute. reflexivity. Qed.

Example session_lpush_lrange :
  reply (HandleConnection strconv.ParseFloat_decimal 2
           (boot (frame ["LPUSH"; "mylist"; "a"; "b"; "c"]
                  ++ frame ["LRANGE"; "mylist"; "0"; "-1"])))
  = ":3" +:+ CRLF +:+ "*3" +:+ CRLF +:+ bulk "c" +:+ bulk "b" +:+ bulk "a".
Proof. vm_compute. reflexivity. Qed.

Example session_rpush_lrange :
  reply (HandleConnection strconv.ParseFloat_decimal 2
           (boot (frame ["RPUSH"; "mylist"; "a"; "b"; "c"]
                  ++ frame ["LRANGE"; "mylist"; "0"; "-1"])))
  = ":3" +:+ CRLF +:+ "*3" +:+ CRLF +:+ bulk "a" +:+ bulk "b" +:+ bulk "c".
Proof. vm_compute. reflexivity. Qed.

Example session_unknown_command :
  reply (HandleConnection strconv.ParseFloat_decimal 3
           (boot (frame ["RPUSH"; "mylist"; "a"] ++ frame ["FOO"] ++ frame ["LLEN"; "mylist"])))
  = ":1" +:+ CRLF +:+ "-ERR unknown command 'FOO'" +:+ CRLF +:+ ":1" +:+ CRLF.
Proof. vm_compute. reflexivity. Qed.

(** A line feed inside an element ends a line for the reader: the element
    is cut there, and what follows it is taken for the next frame. *)
Example session_line_feed_in_element :
  reply (HandleConnection strconv.ParseFloat_decimal 2
           (boot (frame ["ECHO"; "x" +:+ String "010" "y"])))
  = "+x" +:+ CRLF +:+ "-ERR invalid format" +:+ CRLF +:+ "-ERR invalid format" +:+ CRLF.
Proof. vm_compute. reflexivity. Qed.

(** A push after BLPOP with a bad timeout on an empty list finds the lock
    held: the connection hangs in [mu.Lock()]. *)
Example session_lock_left_held :
  HandleConnection strconv.ParseFloat_decimal 2
    (boot (frame ["BLPOP"; "jobs"; "soon"] ++ frame ["RPUSH"; "jobs"; "task1"]))
  = LockWait.
Proof. vm_compute. reflexivity. Qed.

(** Client A waits on the empty list [jobs]; client B, on a connection of
    its own, pushes and is answered at once; A is woken and pops the
    element. *)
Example session_blpop_woken :
  ∃ w1 req w2 w3,
    dispatch strconv.ParseFloat_decimal ["BLPOP"; "jobs"; "0"] (boot [])
    = ChanWait w1 req true
    ∧ dispatch strconv.ParseFloat_decimal ["RPUSH"; "jobs"; "task1"]
        (set_conn (λ _, client []) w1) = Done w2
    ∧ written (conn w2) = ":1" +:+ CRLF
    ∧ handleBLPop_signal req true (set_conn (λ _, conn w1) w2) = Done w3
    ∧ at_key (blockings w3) "jobs" = []
    ∧ at_key (rPlush w3) "jobs" = []
    ∧ written (conn w3) = "*2" +:+ CRLF +:+ bulk "jobs" +:+ bulk "task1".
Proof.
  do 4 eexists. split; [vm_compute; reflexivity|]. split; [vm_compute; reflexivity|].
  split; [vm_compute; reflexivity|]. split; [vm_compute; reflexivity|].
  repeat split; vm_compute; reflexivity.
Qed.

(** * Further properties of the handlers *)


Lemma len_at_least_5 {A} (a b c d e : A) (more : list A) :
  (5 <=? len (a :: b :: c :: d :: e :: more)) = true.
Proof. rewrite !len_cons. pose proof (len_nonneg more). apply Z.leb_le. lia. Qed.

Lemma len_at_least_3 {A} (a b c : A) (more : list A) :
  (len (a :: b :: c :: more) <? 3) = false.
Proof. rewrite !len_cons. pose proof (len_nonneg more). apply Z.ltb_ge. lia. Qed.

Lemma handleLPop_count_ne (c key n : string) (w : World) :
  at_key (rPlush w) key ≠ [] →
  handleLPop [c; key; n] w =
    let l := at_key (rPlush w) key in
    let k := Z.to_nat (LPOP_count n (len l)) in
    Done (write_array (take k l) (set_rPlush <[key := drop k l]> w)).
Proof. intros Hne. rewrite handleLPop_count. by destruct (at_key (rPlush w) key). Qed.




Lemma take_LPOP_count (c : string) (n : Z) (l : list string) :
  strconv.Atoi c = Some n → 1 ≤ n →
  take (Z.to_nat (LPOP_count c (len l))) l = take (Z.to_nat n) l
  ∧ drop (Z.to_nat (LPOP_count c (len l))) l = drop (Z.to_nat n) l.
Proof.
  intros Hc Hn. unfold LPOP_count. rewrite Hc.
  destruct (Z.leb_spec n 0) as [?|_]; [lia|]. cbn zeta.
  destruct (Z.le_gt_cases n (len l)) as [Hle|Hgt].
  - by rewrite Z.min_l.
  - rewrite Z.min_r by lia. unfold len in *.
    rewrite Nat2Z.id, !take_ge, !drop_ge by lia. done.
Qed.

(** The call returned in a world that is given by the goal. *)
Ltac returned := eexists; split; [reflexivity|rewrite ?writeBulkString_Write].

Section Further.

Variable ParseFloat : string → option spec_float.

(** ** SET with an expiry *)



(** X2.  SET with a PX value that is not an integer answers an error and
    stores nothing: the world is as before but for the reply. *)
Theorem set_px_not_integer (c k v px m : string) (more : list string) (w : World) :
  strings.ToUpper c = "SET" → strings.ToUpper px = "PX" → strconv.Atoi m = None →
  dispatch ParseFloat (c :: k :: v :: px :: m :: more) w
  = Done (Write ("-ERR PX value must be integer" +:+ CRLF) w).
Proof.
  intros Hc Hpx Hm. unfold dispatch. change (arg (c :: ?r) 0) with c. rewrite Hc.
  change (handleSet (c :: k :: v :: px :: m :: more) w
          = Done (Write ("-ERR PX value must be integer" +:+ CRLF) w)).
  unfold handleSet, arg. rewrite len_at_least_3, len_at_least_5. cbn [nth andb].
  by rewrite Hpx, bool_decide_eq_true_2, Hm.
Qed.

(** X3.  SET with a key and a value always returns, whatever follows
    them and whoever holds the lock.  Either it answers the PX error and
    the world is as before, or it answers [+OK] and the store is the old
    one with the entry of its key replaced, value and expiry; the other
    keys, the lists, the waiter queues, the channels and the lock are
    never touched. *)
Theorem set_only_its_key (c k v : string) (more : list string) (w : World) :
  ∃ w',
    handleSet (c :: k :: v :: more) w = Done w'
    ∧ (w' = Write ("-ERR PX value must be integer" +:+ CRLF) w
       ∨ ∃ expiry,
           store w' = <[k := {| Value := v; ExpiryTime := expiry |}]> (store w)
           ∧ written (conn w') = written (conn w) +:+ "+OK" +:+ CRLF)
    ∧ (∀ k', k' ≠ k → store w' !! k' = store w !! k')
    ∧ rPlush w' = rPlush w ∧ blockings w' = blockings w
    ∧ chans w' = chans w ∧ mu w' = mu w.
Proof.
  unfold handleSet, arg. rewrite len_at_least_3. cbn [nth].
  destruct ((5 <=? len _) && _); [destruct (strconv.Atoi _)|];
    eexists; (split; [reflexivity|]); cbn.
  - split; [right; by eexists|]. split; [|done].
    intros k' Hk. by rewrite lookup_insert_ne.
  - split; [by left|done].
  - split; [right; by eexists|]. split; [|done].
    intros k' Hk. by rewrite lookup_insert_ne.
Qed.

(** ** Arity and the lock *)

(** X4.  A supported command called with the wrong number of arguments
    answers [wrong number of arguments for '<NAME>'], with the name in
    upper case whatever the case of the token, and changes nothing else;
    the check comes before the lock is taken, so the answer is given even
    while the lock is held. *)
Theorem wrong_arity (args : list string) (name : string) (w : World) :
  strings.ToUpper (arg args 0) = name → name ∈ supported →
  arity_ok name (len args) = false →
  dispatch ParseFloat args w
  = Done (Write ("-ERR wrong number of arguments for '" +:+ name +:+ "'" +:+ CRLF) w).
Proof.
  intros Hname Hin Har. unfold dispatch. rewrite Hname. clear Hname.
  unfold supported in Hin.
  repeat (apply elem_of_cons in Hin as [->|Hin]); [..|by apply elem_of_nil in Hin].
  - discriminate Har.
  - change (arity_ok "ECHO" ?n) with (n =? 2) in Har.
    change (handleEcho args w = Done (writeError "wrong number of arguments for 'ECHO'" w)).
    unfold handleEcho. by rewrite Har.
  - change (arity_ok "SET" ?n) with (3 <=? n) in Har.
    change (handleSet args w = Done (writeError "wrong number of arguments for 'SET'" w)).
    unfold handleSet. by rewrite Z.ltb_antisym, Har.
  - change (arity_ok "GET" ?n) with (n =? 2) in Har.
    change (handleGet args w = Done (writeError "wrong number of arguments for 'GET'" w)).
    unfold handleGet. by rewrite Har.
  - change (arity_ok "LPUSH" ?n) with (3 <=? n) in Har.
    change (handleLPush args w = Done (writeError "wrong number of arguments for 'LPUSH'" w)).
    unfold handleLPush. by rewrite Z.ltb_antisym, Har.
  - change (arity_ok "RPUSH" ?n) with (3 <=? n) in Har.
    change (handleRPush args w = Done (writeError "wrong number of arguments for 'RPUSH'" w)).
    unfold handleRPush. by rewrite Z.ltb_antisym, Har.
  - change (arity_ok "LRANGE" ?n) with (n =? 4) in Har.
    change (handleLRange args w
            = Done (writeError "wrong number of arguments for 'LRANGE'" w)).
    unfold handleLRange. by rewrite Har.
  - change (arity_ok "LLEN" ?n) with (n =? 2) in Har.
    change (handleLLen args w = Done (writeError "wrong number of arguments for 'LLEN'" w)).
    unfold handleLLen. by rewrite Har.
  - change (arity_ok "LPOP" ?n) with (2 <=? n) in Har.
    change (handleLPop args w = Done (writeError "wrong number of arguments for 'LPOP'" w)).
    unfold handleLPop. by rewrite Z.ltb_antisym, Har.
  - change (arity_ok "BLPOP" ?n) with (n =? 3) in Har.
    change (handleBLPop ParseFloat args w
            = Done (writeError "wrong number of arguments for 'BLPOP'" w)).
    unfold handleBLPop. by rewrite Har.
Qed.

(** X5.  PING, ECHO, LLEN and LRANGE, with any arguments and in any
    state, return at once and only write to the connection: the store,
    the lists, the waiter queues, the channels and the lock are as
    before. *)
Theorem read_only_commands (args : list string) (w : World) :
  strings.ToUpper (arg args 0) ∈ ["PING"; "ECHO"; "LLEN"; "LRANGE"] →
  ∃ r, dispatch ParseFloat args w = Done (Write r w).
Proof.
  intros Hin. unfold dispatch.
  repeat (apply elem_of_cons in Hin as [->|Hin]); [..|by apply elem_of_nil in Hin].
  - by eexists.
  - change (∃ r, handleEcho args w = Done (Write r w)).
    unfold handleEcho. destruct (negb _); by eexists.
  - change (∃ r, handleLLen args w = Done (Write r w)).
    unfold handleLLen. destruct (negb _); by eexists.
  - change (∃ r, handleLRange args w = Done (Write r w)).
    unfold handleLRange. destruct (negb _); [by eexists|].
    destruct (strconv.Atoi _); [|by eexists].
    destruct (strconv.Atoi _); [|by eexists].
    destruct (_ || _); [by eexists|].
    rewrite writeBulkStrings_Write, Write_Write. by eexists.
Qed.

Lemma dispatch_without_lock (args : list string) (w : World) :
  strings.ToUpper (arg args 0) ∉ ["LPUSH"; "RPUSH"; "BLPOP"] →
  ∃ w',
    dispatch ParseFloat args w = Done w'
    ∧ mu w' = mu w ∧ blockings w' = blockings w ∧ chans w' = chans w
    ∧ next_chan w' = next_chan w.
Proof.
  intros Hcmd. unfold dispatch.
  case_decide; [by returned|].
  case_decide; [unfold handleEcho; destruct (negb _); by returned|].
  case_decide; [unfold handleSet; repeat case_match; by returned|].
  case_decide.
  { unfold handleGet, comma_ok. destruct (negb _); [by returned|].
    destruct (store w !! arg args 1) as [e|]; cbn [negb orb];
      [destruct (_ && _)|]; by returned. }
  case_decide as E; [exfalso; apply Hcmd; rewrite E; set_solver|].
  case_decide as E'; [exfalso; apply Hcmd; rewrite E'; set_solver|].
  case_decide.
  { unfold handleLRange. repeat case_match; try by returned.
    all: rewrite writeBulkStrings_Write; by returned. }
  case_decide; [unfold handleLLen; destruct (negb _); by returned|].
  case_decide.
  { unfold handleLPop. repeat case_match; try by returned.
    all: rewrite (foldl_writeBulkString (λ i, nth i _ "")); by returned. }
  case_decide as E''; [exfalso; apply Hcmd; rewrite E''; set_solver|].
  by returned.
Qed.

(** X6.  GET, SET, LPOP and every command of [read_only_commands] never
    wait and never touch the lock or the waiters: whoever holds the lock,
    the call returns, with the lock, the waiter queues and the channels as
    it found them. *)
Theorem commands_without_lock (args : list string) (w : World) :
  strings.ToUpper (arg args 0) ∉ ["LPUSH"; "RPUSH"; "BLPOP"] →
  ∃ w',
    dispatch ParseFloat args w = Done w'
    ∧ mu w' = mu w ∧ blockings w' = blockings w ∧ chans w' = chans w
    ∧ next_chan w' = next_chan w.
Proof.
  apply dispatch_without_lock.
Qed.

(** X7.  LPUSH, RPUSH and BLPOP with the right number of arguments wait
    while the lock is held, having changed nothing; and a push that finds
    the lock free returns with the lock free again. *)
Theorem commands_with_lock (args : list string) (w : World) :
  strings.ToUpper (arg args 0) ∈ ["LPUSH"; "RPUSH"; "BLPOP"] →
  arity_ok (strings.ToUpper (arg args 0)) (len args) = true →
  (mu w = true → dispatch ParseFloat args w = LockWait)
  ∧ (mu w = false → strings.ToUpper (arg args 0) ≠ "BLPOP" →
     ∃ w', dispatch ParseFloat args w = Done w' ∧ mu w' = false).
Proof.
  intros Hin Har. unfold dispatch.
  repeat (apply elem_of_cons in Hin as [Hin|Hin]); [..|by apply elem_of_nil in Hin];
    rewrite Hin in *.
  - change (arity_ok "LPUSH" ?n) with (3 <=? n) in Har.
    change ((mu w = true → handleLPush args w = LockWait)
            ∧ (mu w = false → "LPUSH" ≠ "BLPOP" →
               ∃ w', handleLPush args w = Done w' ∧ mu w' = false)).
    unfold handleLPush. rewrite Z.ltb_antisym, Har. cbn [negb].
    split; [by intros ->|]. intros -> _. by eexists.
  - change (arity_ok "RPUSH" ?n) with (3 <=? n) in Har.
    change ((mu w = true → handleRPush args w = LockWait)
            ∧ (mu w = false → "RPUSH" ≠ "BLPOP" →
               ∃ w', handleRPush args w = Done w' ∧ mu w' = false)).
    unfold handleRPush. rewrite Z.ltb_antisym, Har. cbn [negb].
    split; [by intros ->|]. intros -> _. by eexists.
  - change (arity_ok "BLPOP" ?n) with (n =? 3) in Har.
    change ((mu w = true → handleBLPop ParseFloat args w = LockWait)
            ∧ (mu w = false → "BLPOP" ≠ "BLPOP" →
               ∃ w', handleBLPop ParseFloat args w = Done w' ∧ mu w' = false)).
    unfold handleBLPop. rewrite Har. cbn [negb].
    split; [by intros ->|]. by intros _ [].
Qed.

(** ** Lists read back *)

(** What a push leaves in the list of its key. *)
Lemma push_leaves (key : string) (l : list string) (n : Z) (w : World) :
  at_key (rPlush (set_mu false (writeInteger n
            (wakeUpFirstBlocking key (set_rPlush <[key := l]> (set_mu true w)))))) key = l.
Proof.
  change (at_key (rPlush (wakeUpFirstBlocking key (set_rPlush <[key := l]> (set_mu true w))))
            key = l).
  rewrite wake_rPlush. cbn [rPlush set_rPlush set_mu]. apply at_key_insert.
Qed.


Lemma LRANGE_spec_in_range (l : list string) (s e : Z) :
  0 ≤ s ≤ e → e < len l → LRANGE_spec l s e = slice l s (e + 1).
Proof.
  intros Hs He. unfold LRANGE_spec. cbn zeta.
  replace (s <? 0) with false by (symmetry; apply Z.ltb_ge; lia).
  replace (e <? 0) with false by (symmetry; apply Z.ltb_ge; lia).
  replace (0 `max` ((len l - 1) `min` s)) with s by lia.
  replace (0 `max` ((len l - 1) `min` e)) with e by lia.
  replace (e <? s) with false by (symmetry; apply Z.ltb_ge; lia).
  by replace (len l <=? s) with false by (symmetry; apply Z.leb_gt; lia).
Qed.

(** X11.  LRANGE with bounds inside the list, start not after end,
    answers end - start + 1 elements, the i-th of them being the element
    of the list at start + i. *)
Theorem lrange_elements (key a b : string) (s e : Z) (w : World) :
  strconv.Atoi a = Some s → strconv.Atoi b = Some e →
  0 ≤ s ≤ e → e < len (at_key (rPlush w) key) →
  ∃ items,
    dispatch ParseFloat ["LRANGE"; key; a; b] w = Done (Write (encode_array items) w)
    ∧ len items = e - s + 1
    ∧ ∀ i : nat, Z.of_nat i < e - s + 1 →
                 items !! i = at_key (rPlush w) key !! (Z.to_nat s + i)%nat.
Proof.
  intros Ha Hb Hs He. exists (slice (at_key (rPlush w) key) s (e + 1)).
  change (dispatch ParseFloat ["LRANGE"; key; a; b] w)
    with (handleLRange ["LRANGE"; key; a; b] w).
  rewrite (handleLRange_spec _ _ _ _ s e), LRANGE_spec_in_range, write_array_Write by done.
  split; [done|]. split.
  - unfold slice, len in *. rewrite length_take, length_drop. lia.
  - intros i Hi. rewrite slice_lookup by lia. rewrite decide_True by lia. done.
Qed.

(** X9.  A list filled by one RPUSH is popped in the order of the push, a
    list filled by one LPUSH in the reverse order: LPOP with a count n of
    at least 1 answers the first n values (all of them when n is larger)
    and leaves the rest. *)
Theorem push_then_pop (key c : string) (n : Z) (vals : list string) (w : World) :
  vals ≠ [] → mu w = false → at_key (rPlush w) key = [] →
  strconv.Atoi c = Some n → 1 ≤ n →
  (∃ w1 w2,
      dispatch ParseFloat ("RPUSH" :: key :: vals) w = Done w1
      ∧ dispatch ParseFloat ["LPOP"; key; c] w1 = Done w2
      ∧ written (conn w2) = written (conn w1) +:+ encode_array (take (Z.to_nat n) vals)
      ∧ at_key (rPlush w2) key = drop (Z.to_nat n) vals)
  ∧ (∃ w1 w2,
      dispatch ParseFloat ("LPUSH" :: key :: vals) w = Done w1
      ∧ dispatch ParseFloat ["LPOP"; key; c] w1 = Done w2
      ∧ written (conn w2) = written (conn w1) +:+ encode_array (take (Z.to_nat n) (rev vals))
      ∧ at_key (rPlush w2) key = drop (Z.to_nat n) (rev vals)).
Proof.
  intros Hne Hmu Hold Hc Hn.
  assert (rev vals ≠ []) as Hrev.
  { intros E. apply (f_equal length) in E. rewrite length_rev in E. by destruct vals. }
  split.
  - change (dispatch ParseFloat ("RPUSH" :: key :: vals) w)
      with (handleRPush ("RPUSH" :: key :: vals) w).
    rewrite handleRPush_Done by done. cbn zeta. rewrite Hold, app_nil_l.
    eexists _, _. split; [reflexivity|].
    change (dispatch ParseFloat ["LPOP"; key; c] ?x) with (handleLPop ["LPOP"; key; c] x).
    rewrite handleLPop_count_ne by (by rewrite push_leaves).
    rewrite push_leaves. cbn zeta.
    destruct (take_LPOP_count c n vals Hc Hn) as [-> ->].
    split; [reflexivity|]. rewrite write_array_Write.
    split; [reflexivity|]. cbn [rPlush Write set_conn set_rPlush]. apply at_key_insert.
  - change (dispatch ParseFloat ("LPUSH" :: key :: vals) w)
      with (handleLPush ("LPUSH" :: key :: vals) w).
    rewrite handleLPush_Done by done. cbn zeta. rewrite Hold, app_nil_r.
    eexists _, _. split; [reflexivity|].
    change (dispatch ParseFloat ["LPOP"; key; c] ?x) with (handleLPop ["LPOP"; key; c] x).
    rewrite handleLPop_count_ne by (by rewrite push_leaves).
    rewrite push_leaves. cbn zeta.
    destruct (take_LPOP_count c n (rev vals) Hc Hn) as [-> ->].
    split; [reflexivity|]. rewrite write_array_Write.
    split; [reflexivity|]. cbn [rPlush Write set_conn set_rPlush]. apply at_key_insert.
Qed.


End Further.

(** * Decimal numbers and white space *)

(** Splits the goal on every comparison of bytes in it. *)
Ltac byte_cases :=
  repeat match goal with
    | |- context [(?a =? ?b)%N] => destruct (N.eqb_spec a b)
    | |- context [(?a <=? ?b)%N] => destruct (N.leb_spec a b)
    end.

Lemma digit_pretty_N_char (d : N) :
  (d < 10)%N → strconv.digit (pretty_N_char d) = Some (Z.of_N d).
Proof.
  intros Hd.
  assert (d = 0 ∨ d = 1 ∨ d = 2 ∨ d = 3 ∨ d = 4 ∨ d = 5 ∨ d = 6 ∨ d = 7 ∨ d = 8 ∨ d = 9)%N
    as Hcases by lia.
  repeat (destruct Hcases as [->|Hcases]; [reflexivity|]). by subst d.
Qed.

Lemma digits_app (acc : Z) (a b : string) :
  strconv.digits acc (a +:+ b)
  = match strconv.digits acc a with
    | Some v => strconv.digits v b
    | None => None
    end.
Proof.
  revert acc. induction a as [|c a IH]; intros acc; [done|].
  change (String c a +:+ b) with (String c (a +:+ b)). cbn [strconv.digits].
  destruct (strconv.digit c); [apply IH|done].
Qed.

(** The digits [pretty_N_go] puts in front of a string, read back. *)
Lemma pretty_N_go_digits (x : N) :
  ∃ ds,
    (∀ s, pretty_N_go x s = ds +:+ s)
    ∧ (∀ acc, strconv.digits acc ds
              = Some (acc * 10 ^ Z.of_nat (String.length ds) + Z.of_N x))
    ∧ ((0 < x)%N → ∃ p c, ds = p +:+ String c "" ∧ is_Some (strconv.digit c)).
Proof.
  induction (N.lt_wf_0 x) as [x _ IH].
  destruct (decide (0 < x)%N) as [Hx|Hx].
  - destruct (IH (x `div` 10)%N) as (ds & Hgo & Hval & _); [by apply N.div_lt|].
    assert (strconv.digit (pretty_N_char (x `mod` 10)) = Some (Z.of_N (x `mod` 10))) as Hd
      by (apply digit_pretty_N_char, N.mod_lt; lia).
    exists (ds +:+ String (pretty_N_char (x `mod` 10)) "").
    split; [|split].
    + intros s. by rewrite pretty_N_go_step, Hgo, append_assoc.
    + intros acc. rewrite digits_app, Hval. cbn [strconv.digits]. rewrite Hd.
      f_equal.
      assert (String.length (ds +:+ String (pretty_N_char (x `mod` 10)) "")
              = S (String.length ds)) as ->.
      { clear. induction ds as [|c ds IH]; [done|].
        change (String c ds +:+ ?t) with (String c (ds +:+ t)). cbn [String.length].
        by rewrite IH. }
      rewrite Nat2Z.inj_succ, Z.pow_succ_r by lia.
      pose proof (N.div_mod x 10 ltac:(lia)) as Hdm. lia.
    + intros _. exists ds, (pretty_N_char (x `mod` 10)). by rewrite Hd.
  - assert (x = 0%N) as -> by lia. exists "". split; [done|].
    split; [intros acc; cbn; f_equal; lia|]. intros ?; lia.
Qed.

Lemma digit_plain (c : ascii) :
  is_Some (strconv.digit c) → (byte_of c < 128)%N ∧ strings.space1 c = false.
Proof.
  unfold strconv.digit, strings.space1. cbn zeta. intros [d Hd].
  destruct (N.leb_spec 48 (byte_of c)); [|done].
  destruct (N.leb_spec (byte_of c) 57); [|done].
  split; [lia|]. byte_cases; (lia || done).
Qed.

(** A byte of ASCII that is not white space stops the trimming, read from
    either end. *)
Lemma trim_front_plain (back : bool) (c : ascii) (r : string) :
  (byte_of c < 128)%N → strings.space1 c = false →
  strings.trim_front back (String c r) = String c r.
Proof.
  intros Hc Hsp.
  assert (∀ d, strings.space2 c d = false) as H2.
  { intros d. unfold strings.space2. by rewrite (proj2 (N.eqb_neq _ 194)) by lia. }
  assert (∀ d, strings.space2 d c = false) as H2'.
  { intros d. unfold strings.space2.
    rewrite (proj2 (N.eqb_neq (byte_of c) 133)), (proj2 (N.eqb_neq (byte_of c) 160)) by lia.
    apply andb_false_r. }
  assert (∀ d e, strings.space3 c d e = false) as H3.
  { intros d e. unfold strings.space3.
    by rewrite (proj2 (N.eqb_neq (byte_of c) 225)), (proj2 (N.eqb_neq (byte_of c) 226)),
      (proj2 (N.eqb_neq (byte_of c) 227)) by lia. }
  assert (∀ d e, strings.space3 e d c = false) as H3'.
  { intros d e. unfold strings.space3.
    rewrite (proj2 (N.eqb_neq (byte_of c) 128)), (proj2 (N.eqb_neq (byte_of c) 159)),
      (proj2 (N.eqb_neq (byte_of c) 168)), (proj2 (N.eqb_neq (byte_of c) 169)),
      (proj2 (N.eqb_neq (byte_of c) 175)), (proj2 (N.leb_gt 128 (byte_of c))) by lia.
    by rewrite ?andb_false_r. }
  cbn [strings.trim_front]. rewrite Hsp.
  destruct r as [|d [|e r]]; [done|..]; destruct back; by rewrite ?H2, ?H2', ?H3, ?H3'.
Qed.

Lemma rev_app_append (s t u : string) :
  String.rev_app (s +:+ t) u = String.rev_app t (String.rev_app s u).
Proof.
  revert u. induction s as [|c s IH]; intros u; [done|].
  change (String c s +:+ t) with (String c (s +:+ t)). cbn [String.rev_app]. apply IH.
Qed.

Lemma rev_app_rev_app (s t u : string) :
  String.rev_app (String.rev_app s t) u = String.rev_app t (s +:+ u).
Proof.
  revert t. induction s as [|c s IH]; intros t; [done|].
  cbn [String.rev_app]. by rewrite IH.
Qed.

Lemma rev_involutive (s : string) : String.rev (String.rev s) = s.
Proof. unfold String.rev. rewrite rev_app_rev_app. cbn. apply append_empty_r. Qed.

(** [strings.TrimSpace] takes the line ending off a line whose first and
    last bytes before it are ASCII and not white space. *)
Lemma TrimSpace_line (c l : ascii) (r p : string) :
  String c r = p +:+ String l "" →
  (byte_of c < 128)%N → strings.space1 c = false →
  (byte_of l < 128)%N → strings.space1 l = false →
  strings.TrimSpace (String c r +:+ CRLF) = String c r.
Proof.
  intros Hs Hc Hc' Hl Hl'. unfold strings.TrimSpace.
  change (String c r +:+ CRLF) with (String c (r +:+ CRLF)).
  rewrite trim_front_plain by done.
  change (String c (r +:+ CRLF)) with (String c r +:+ CRLF).
  rewrite Hs. unfold String.rev. rewrite !rev_app_append.
  cbn [String.rev_app CRLF].
  change (strings.trim_front true
            (String "010" (String "013" (String l (String.rev_app p "")))))
    with (strings.trim_front true (String l (String.rev_app p ""))).
  rewrite trim_front_plain by done.
  change (String l (String.rev_app p "")) with (String.rev_app (String l "") (String.rev_app p "")).
  rewrite <- rev_app_append. apply rev_involutive.
Qed.

(** The decimal digits [%d] writes for a positive number. *)
Lemma Sprintf_d_pos (p : positive) :
  ∃ c r q l,
    fmt.Sprintf_d (Z.pos p) = String c r
    ∧ String c r = q +:+ String l ""
    ∧ is_Some (strconv.digit c) ∧ is_Some (strconv.digit l)
    ∧ strconv.digits 0 (String c r) = Some (Z.pos p).
Proof.
  destruct (pretty_N_go_digits (N.pos p)) as (ds & Hgo & Hval & Hlast).
  destruct Hlast as (q & l & Hds & Hl); [lia|].
  assert (fmt.Sprintf_d (Z.pos p) = ds) as Hp.
  { unfold fmt.Sprintf_d, pretty, pretty_Z, pretty, pretty_positive, pretty, pretty_N.
    rewrite decide_False by done. rewrite Hgo. apply append_empty_r. }
  specialize (Hval 0). rewrite Z.mul_0_l, Z.add_0_l in Hval.
  destruct ds as [|c r].
  { destruct q; discriminate Hds. }
  exists c, r, q, l. repeat split; try done.
  cbn [strconv.digits] in Hval. by destruct (strconv.digit c).
Qed.

Lemma Atoi_unsigned (c : ascii) (r : string) :
  is_Some (strconv.digit c) →
  strconv.Atoi (String c r)
  = match strconv.digits 0 (String c r) with
    | Some n => if strconv.in_int64 n then Some n else None
    | None => None
    end.
Proof.
  intros [d Hd].
  destruct c as [[] [] [] [] [] [] [] []]; try discriminate Hd; reflexivity.
Qed.

Lemma scan_digits_all (acc v : Z) (s : string) :
  strconv.digits acc s = Some v → fmt.scan_digits s = s.
Proof.
  revert acc. induction s as [|c s IH]; intros acc H; [done|].
  cbn [strconv.digits fmt.scan_digits] in *.
  destruct (strconv.digit c); [|done]. by rewrite (IH _ H).
Qed.

Lemma Sscanf_unsigned (c : ascii) (r : string) (n : Z) :
  is_Some (strconv.digit c) → strconv.digits 0 (String c r) = Some n →
  strconv.in_int64 n = true →
  fmt.Sscanf_star_d (String "*" (String c r)) = Some n.
Proof.
  intros Hc Hn Hr. pose proof (scan_digits_all _ _ _ Hn) as Hscan.
  destruct (digit_plain c Hc) as [Hlt Hsp]. unfold fmt.Sscanf_star_d.
  rewrite trim_front_plain by done. destruct Hc as [d Hd].
  destruct c as [[] [] [] [] [] [] [] []]; try discriminate Hd;
    cbv beta iota zeta; rewrite Hscan, Hn, Hr; reflexivity.
Qed.

(** What [%d] writes for an [int], [strconv.Atoi] reads back. *)
Lemma Atoi_Sprintf_d (n : Z) :
  - 2 ^ 63 ≤ n < 2 ^ 63 → strconv.Atoi (fmt.Sprintf_d n) = Some n.
Proof.
  intros Hn.
  assert (∀ m, - 2 ^ 63 ≤ m < 2 ^ 63 → strconv.in_int64 m = true) as Hin.
  { intros m Hm. unfold strconv.in_int64. apply andb_true_intro.
    split; apply Z.leb_le; lia. }
  destruct n as [|p|p]; [reflexivity|..].
  - destruct (Sprintf_d_pos p) as (c & r & q & l & -> & _ & Hc & _ & Hval).
    by rewrite Atoi_unsigned, Hval, Hin.
  - destruct (Sprintf_d_pos p) as (c & r & q & l & Hp & _ & Hc & _ & Hval).
    change (fmt.Sprintf_d (Z.neg p)) with (String "-" (fmt.Sprintf_d (Z.pos p))).
    rewrite Hp.
    change (strconv.Atoi (String "-" (String c r)))
      with (match strconv.digits 0 (String c r) with
            | Some n => if strconv.in_int64 (- n) then Some (- n) else None
            | None => None
            end).
    rewrite Hval. by rewrite Hin by lia.
Qed.

(** The header of a frame of [n] elements is read back as [n]. *)
Lemma parse_header (n : Z) :
  0 < n < 2 ^ 63 →
  let header := "*" +:+ fmt.Sprintf_d n in
  strings.TrimSpace (header +:+ CRLF) = header
  ∧ header ≠ "" ∧ strings.HasPrefix header "*" = true
  ∧ fmt.Sscanf_star_d header = Some n.
Proof.
  intros Hn header. destruct n as [|p|p]; [lia| |lia].
  destruct (Sprintf_d_pos p) as (c & r & q & l & Hp & Hq & Hc & Hl & Hval).
  unfold header. rewrite Hp. change ("*" +:+ String c r) with (String "*" (String c r)).
  split; [|split; [done|split; [done|]]].
  - destruct (digit_plain l Hl) as [??].
    apply (TrimSpace_line "*" l (String c r) (String "*" q)); try done.
    by rewrite Hq.
  - apply Sscanf_unsigned; try done.
    unfold strconv.in_int64. apply andb_true_intro. split; apply Z.leb_le; lia.
Qed.

(** ** Bulk strings read back *)

Lemma digits_stop (ds ds' x y : string) (c : ascii) (acc acc' v v' : Z) :
  strconv.digits acc ds = Some v → strconv.digits acc' ds' = Some v' →
  strconv.digit c = None →
  ds +:+ String c x = ds' +:+ String c y → ds = ds' ∧ x = y.
Proof.
  intros Hds Hds' Hc. revert ds' acc acc' Hds Hds'.
  induction ds as [|d r IH]; intros [|d' r'] acc acc' Hds Hds' E.
  - by injection E.
  - injection E as -> _. cbn [strconv.digits] in Hds'. by rewrite Hc in Hds'.
  - injection E as -> _. cbn [strconv.digits] in Hds. by rewrite Hc in Hds.
  - injection E as -> E. cbn [strconv.digits] in Hds, Hds'.
    destruct (strconv.digit d') as [n|]; [|done].
    destruct (IH r' _ _ Hds Hds' E) as [-> ->]. done.
Qed.

Lemma rev_app_spec (t a : string) : String.rev_app t a = String.rev t +:+ a.
Proof.
  unfold String.rev. revert a. induction t as [|c t IH]; intros a; [done|].
  cbn [String.rev_app]. rewrite (IH (String c a)), (IH (String c "")).
  by rewrite append_assoc.
Qed.

Lemma append_inv_tail (s s' t : string) : s +:+ t = s' +:+ t → s = s'.
Proof.
  intros E. apply (f_equal String.rev) in E. unfold String.rev in E.
  rewrite !rev_app_append, !(rev_app_spec t) in E.
  apply (inj (String.app _)) in E.
  rewrite <- (rev_involutive s), <- (rev_involutive s'). unfold String.rev at 2 4.
  by rewrite E.
Qed.

Lemma Sprintf_d_digits (n : Z) :
  0 ≤ n →
  ∃ c r, fmt.Sprintf_d n = String c r ∧ is_Some (strconv.digit c)
         ∧ strconv.digits 0 (String c r) = Some n.
Proof.
  intros Hn. destruct n as [|p|p]; [by exists "0"%char, ""| |lia].
  destruct (Sprintf_d_pos p) as (c & r & _ & _ & Hp & _ & Hc & _ & Hval). eauto.
Qed.

(** What [writeBulkString] writes for a value tells the value. *)
Lemma encode_bulk_inj (s s' : string) : encode_bulk s = encode_bulk s' → s = s'.
Proof.
  assert (∀ x, bulk x ≠ null) as Hnull.
  { intros x E. unfold bulk, null in E.
    destruct (Sprintf_d_digits (strlen x)) as (c & r & Hp & [d Hd] & _);
      [unfold strlen; lia|].
    rewrite Hp in E. injection E as -> _. discriminate Hd. }
  unfold encode_bulk. repeat case_decide; subst; try done.
  - intros E. by destruct (Hnull s').
  - intros E. by destruct (Hnull s).
  - unfold bulk. intros E. injection E as E.
    destruct (Sprintf_d_digits (strlen s)) as (c & r & Hp & _ & Hv); [unfold strlen; lia|].
    destruct (Sprintf_d_digits (strlen s')) as (c' & r' & Hp' & _ & Hv');
      [unfold strlen; lia|].
    rewrite Hp, Hp' in E. unfold CRLF at 1 3 in E.
    change (String "013" (String "010" "") +:+ ?x) with (String "013" (String "010" x)) in E.
    destruct (digits_stop _ _ _ _ "013" _ _ _ _ Hv Hv' eq_refl E) as [_ E'].
    injection E' as E'. by apply append_inv_tail in E'.
Qed.

Lemma append_inv_head (p a b : string) : p +:+ a = p +:+ b → a = b.
Proof.
  induction p as [|c p IH]; [done|].
  change (String c (p +:+ a) = String c (p +:+ b) → a = b). intros [= E]. by apply IH.
Qed.

(** X22.  The bytes [writeBulkString] adds to the connection tell the
    value: two values that leave the same bytes on a connection are
    equal, the empty value being the only one written as [$-1]. *)
Theorem writeBulkString_inj (s s' : string) (w : World) :
  written (conn (writeBulkString s w)) = written (conn (writeBulkString s' w)) → s = s'.
Proof.
  rewrite !writeBulkString_Write. cbn [Write set_conn conn written]. intros E.
  apply encode_bulk_inj. by apply (append_inv_head (written (conn w))).
Qed.


(** * Decoding *)

Lemma with_pending_same (w : World) : with_pending (pending (conn w)) w = w.
Proof. by destruct w as [? ? ? ? ? ? ? []]. Qed.

Lemma ReadString_line (l : string) (ls : list string) (w : World) :
  pending (conn w) = l :: ls → ReadString w = (inl l, with_pending ls w).
Proof. unfold ReadString. by intros ->. Qed.

Lemma parseArgs_loop_reads (pairs : list (string * string)) (acc rest : list string)
    (w : World) :
  pending (conn w) = interleave pairs ++ rest →
  parseArgs_loop (length pairs) acc w
  = (inl (acc ++ (strings.TrimSpace ∘ snd <$> pairs)), with_pending rest w).
Proof.
  revert acc w. induction pairs as [|[l a] pairs IH]; intros acc w Hw.
  - cbn in *. rewrite app_nil_r, <- Hw. by rewrite with_pending_same.
  - cbn [length parseArgs_loop]. rewrite (ReadString_line l _ _ Hw).
    rewrite (ReadString_line a (interleave pairs ++ rest)) by done.
    rewrite IH by done. by rewrite <- app_assoc.
Qed.

Lemma lines_cons (body rest : string) :
  one_line body = true →
  lines (body +:+ String "010" rest) = (body +:+ String "010" "") :: lines rest.
Proof.
  induction body as [|c body IH]; [done|]. cbn [one_line]. intros [Hc Hb]%andb_prop.
  change (String c body +:+ ?x) with (String c (body +:+ x)). cbn [lines].
  rewrite (proj1 (negb_true_iff _) Hc). by rewrite IH.
Qed.

Lemma one_line_app (a b : string) :
  one_line (a +:+ b) = one_line a && one_line b.
Proof.
  induction a as [|c a IH]; [done|].
  change (String c a +:+ b) with (String c (a +:+ b)). cbn [one_line].
  by rewrite IH, andb_assoc.
Qed.

Lemma lines_CRLF (x rest : string) :
  one_line x = true → lines (x +:+ CRLF +:+ rest) = (x +:+ CRLF) :: lines rest.
Proof.
  intros Hx.
  change (x +:+ CRLF +:+ rest) with (x +:+ String "013" (String "010" rest)).
  change (x +:+ CRLF) with (x +:+ String "013" (String "010" "")).
  change (String "013" (String "010" rest)) with (String "013" "" +:+ String "010" rest).
  change (String "013" (String "010" "")) with (String "013" "" +:+ String "010" "").
  rewrite <- !append_assoc. apply lines_cons. by rewrite one_line_app, Hx.
Qed.

Lemma one_line_digits (acc : Z) (s : string) :
  is_Some (strconv.digits acc s) → one_line s = true.
Proof.
  revert acc. induction s as [|c s IH]; intros acc; [done|]. cbn [strconv.digits one_line].
  destruct (strconv.digit c) as [d|] eqn:Hd; [|by intros [? ?]].
  intros Hs. rewrite (IH _ Hs), andb_true_r.
  destruct (Ascii.eqb_spec c "010") as [->|]; [|done]. by vm_compute in Hd.
Qed.

Lemma one_line_Sprintf_d (n : Z) : 0 ≤ n → one_line (fmt.Sprintf_d n) = true.
Proof.
  intros Hn. destruct (Sprintf_d_digits n Hn) as (c & r & -> & _ & Hval).
  apply (one_line_digits 0). by rewrite Hval.
Qed.

(** A frame whose elements hold no line feed is read as the line of the
    count followed, for each element, by the line of its length and the
    line of its payload. *)
Lemma frame_interleave (args : list string) :
  Forall (λ a, one_line a = true) args →
  frame args
  = ("*" +:+ fmt.Sprintf_d (len args) +:+ CRLF)
    :: interleave ((λ a, ("$" +:+ fmt.Sprintf_d (strlen a) +:+ CRLF, a +:+ CRLF)) <$> args).
Proof.
  intros Hargs. unfold frame, wire.
  rewrite <- (append_assoc "*"), <- (append_assoc ("*" +:+ _) CRLF).
  rewrite (append_assoc _ CRLF).
  rewrite lines_CRLF by (apply (one_line_Sprintf_d (len args)), len_nonneg).
  rewrite append_assoc. f_equal.
  induction Hargs as [|a args Ha _ IH]; [done|]. cbn [foldr fmap list_fmap].
  unfold interleave. cbn [fmap list_fmap concat fst snd app].
  rewrite <- (append_assoc "$").
  rewrite lines_CRLF by (apply (one_line_Sprintf_d (strlen a)); unfold strlen; lia).
  rewrite lines_CRLF by done. rewrite append_assoc. by rewrite IH.
Qed.

Section Decoding.

Variable ParseFloat : string → option spec_float.

Lemma parseArgs_reads (h : string) (pairs : list (string * string))
    (rest : list string) (w : World) :
  pending (conn w) = h :: interleave pairs ++ rest →
  strings.TrimSpace h ≠ "" → strings.HasPrefix (strings.TrimSpace h) "*" = true →
  parseLength (strings.TrimSpace h) = len pairs →
  parseArgs w = (inl (strings.TrimSpace ∘ snd <$> pairs), with_pending rest w).
Proof.
  intros Hw Hne Hpre Hn. unfold parseArgs. rewrite (ReadString_line _ _ _ Hw).
  cbn zeta. rewrite bool_decide_eq_false_2, Hpre, Hn by done. cbn [orb negb].
  unfold len. rewrite Nat2Z.id. by rewrite (parseArgs_loop_reads pairs [] rest).
Qed.

(** X12.  [parseArgs] on a header that counts n elements reads 2n more
    lines and returns the n payload lines, each with the white space at
    its ends taken off; the line before each payload is skipped whatever
    it holds, and nothing is written. *)
Theorem parseArgs_decodes (h : string) (pairs : list (string * string))
    (rest : list string) (w : World) :
  pending (conn w) = h :: interleave pairs ++ rest →
  strings.TrimSpace h ≠ "" → strings.HasPrefix (strings.TrimSpace h) "*" = true →
  parseLength (strings.TrimSpace h) = len pairs →
  parseArgs w = (inl (strings.TrimSpace ∘ snd <$> pairs), with_pending rest w).
Proof.
  intros Hw Hne Hpre Hn. unfold parseArgs. rewrite (ReadString_line _ _ _ Hw).
  cbn zeta. rewrite bool_decide_eq_false_2, Hpre, Hn by done. cbn [orb negb].
  unfold len. rewrite Nat2Z.id. by rewrite (parseArgs_loop_reads pairs [] rest).
Qed.

(** X13.  A frame as a client writes it (the count, then every element
    with its length before it), with at least one element, no line feed
    inside an element and no white space at the ends of an element, is
    decoded to exactly its elements and handed to the switch; the lines
    that follow stay unread. *)
Theorem frame_is_dispatched (args rest : list string) (w : World) :
  args ≠ [] → len args < 2 ^ 63 →
  Forall (λ a, one_line a = true) args →
  Forall (λ a, strings.TrimSpace (a +:+ CRLF) = a) args →
  pending (conn w) = frame args ++ rest →
  HandleConnection_body ParseFloat w = dispatch ParseFloat args (with_pending rest w).
Proof.
  intros Hne Hlen Hlines Hargs Hw.
  assert (0 < len args) as Hpos.
  { destruct args; [done|]. rewrite len_cons. pose proof (len_nonneg args). lia. }
  destruct (parse_header (len args) ltac:(lia)) as (Htrim & Hnon & Hpre & Hscan).
  rewrite frame_interleave in Hw by done. unfold HandleConnection_body.
  rewrite (parseArgs_reads _ _ _ _ Hw).
  - rewrite <- list_fmap_compose.
    replace (_ <$> args) with args.
    { by rewrite (proj2 (Z.eqb_neq _ _)) by lia. }
    clear -Hargs. induction Hargs as [|a args Ha _ IH]; [done|].
    cbn [fmap list_fmap]. cbn [compose snd]. by rewrite Ha, <- IH.
  - by rewrite <- (append_assoc "*"), Htrim.
  - by rewrite <- (append_assoc "*"), Htrim.
  - rewrite <- (append_assoc "*"), Htrim. unfold parseLength. rewrite Hscan.
    unfold len. by rewrite length_fmap.
Qed.

(** X14.  A line that is empty once trimmed, or does not start with
    [*], is answered twice with [-ERR invalid format], once by
    [parseArgs] and once by [HandleConnection]; only that line is
    read. *)
Theorem invalid_format (h : string) (rest : list string) (w : World) :
  pending (conn w) = h :: rest →
  strings.TrimSpace h = "" ∨ strings.HasPrefix (strings.TrimSpace h) "*" = false →
  HandleConnection_body ParseFloat w
  = Done (Write ("-ERR invalid format" +:+ CRLF +:+ "-ERR invalid format" +:+ CRLF)
            (with_pending rest w)).
Proof.
  intros Hw Hbad. unfold HandleConnection_body, parseArgs.
  rewrite (ReadString_line _ _ _ Hw). cbn zeta.
  assert (bool_decide (strings.TrimSpace h = "")
          || negb (strings.HasPrefix (strings.TrimSpace h) "*") = true) as ->.
  { destruct Hbad as [->| ->]; [done|]. apply orb_true_r. }
  unfold writeError. cbn [Error]. by rewrite Write_Write.
Qed.

(** X15.  A header whose count is zero, negative or not a number is
    answered with [-ERR empty command]; only the header is read. *)
Theorem empty_command (h : string) (rest : list string) (w : World) :
  pending (conn w) = h :: rest →
  strings.TrimSpace h ≠ "" → strings.HasPrefix (strings.TrimSpace h) "*" = true →
  parseLength (strings.TrimSpace h) ≤ 0 →
  HandleConnection_body ParseFloat w
  = Done (Write ("-ERR empty command" +:+ CRLF) (with_pending rest w)).
Proof.
  intros Hw Hne Hpre Hn. unfold HandleConnection_body, parseArgs.
  rewrite (ReadString_line _ _ _ Hw). cbn zeta.
  rewrite bool_decide_eq_false_2, Hpre by done. cbn [orb negb].
  by rewrite Z2Nat.nonpos.
Qed.

End Decoding.

(** * Waiting and waking *)

Lemma wake_head (key : string) (req : BlockingRequest) (rest : list BlockingRequest)
    (w : World) :
  blockings w !! key = Some (req :: rest) → chans w !! Ch req = None →
  wakeUpFirstBlocking key w
  = set_chans <[Ch req := key]> (set_blockings <[key := rest]> w).
Proof. intros Hq Hc. unfold wakeUpFirstBlocking. rewrite Hq. cbn. by rewrite Hc. Qed.

Section Waiting.

Variable ParseFloat : string → option spec_float.

(** X16.  A client that calls BLPOP on an empty list with nobody waiting
    before it is parked; when another client then pushes on the key, the
    push is answered at once, and the parked client, once it runs again,
    pops the head of the list and answers the key and that element.  Its
    queue entry and the value in its channel are gone. *)
Theorem blpop_woken_by_push (key t v : string) (vs : list string)
    (timeout : spec_float) (other : Conn) (w : World) :
  mu w = false → at_key (rPlush w) key = [] → at_key (blockings w) key = [] →
  chans w !! next_chan w = None → ParseFloat t = Some timeout →
  ∃ w1 req forever w2 w3,
    dispatch ParseFloat ["BLPOP"; key; t] w = ChanWait w1 req forever
    ∧ dispatch ParseFloat ("RPUSH" :: key :: v :: vs) (set_conn (λ _, other) w1) = Done w2
    ∧ written (conn w2)
      = written other +:+ ":" +:+ fmt.Sprintf_d (len (v :: vs)) +:+ CRLF
    ∧ handleBLPop_signal req forever (set_conn (λ _, conn w1) w2) = Done w3
    ∧ written (conn w3)
      = written (conn w) +:+ "*2" +:+ CRLF +:+ encode_bulk key +:+ encode_bulk v
    ∧ at_key (rPlush w3) key = vs
    ∧ at_key (blockings w3) key = []
    ∧ chans w3 = chans w.
Proof.
  intros Hmu Hl Hq Hc Ht.
  change (dispatch ParseFloat ["BLPOP"; key; t] w)
    with (handleBLPop ParseFloat ["BLPOP"; key; t] w).
  rewrite (handleBLPop_wait _ _ _ _ timeout) by done. cbn zeta. rewrite Hq, app_nil_l.
  set (req := {| Key := key; Ch := next_chan w;
                 Timeout := float64.to_int64
                              (float64.mul timeout (float64.of_Z time.Second)) |}).
  set (w1 := set_blockings <[key := [req]]> (set_next_chan (S (next_chan w)) w)).
  exists w1, req, (float64.eqb timeout (S754_zero false)).
  change (dispatch ParseFloat ("RPUSH" :: key :: v :: vs) ?x)
    with (handleRPush ("RPUSH" :: key :: v :: vs) x).
  rewrite handleRPush_Done by done.
  change (at_key (rPlush (set_conn (λ _, other) w1)) key) with (at_key (rPlush w) key).
  rewrite Hl, app_nil_l. cbn zeta.
  rewrite (wake_head key req []);
    [|apply lookup_insert_eq|exact Hc].
  eexists _, _. split; [reflexivity|]. split; [reflexivity|].
  split; [reflexivity|].
  unfold handleBLPop_signal.
  cbn [chans set_chans set_rPlush set_mu set_conn set_blockings set_next_chan Ch Key
       writeInteger Write req].
  rewrite lookup_insert_eq.
  cbn [rPlush set_chans set_rPlush set_mu set_conn set_blockings set_next_chan].
  assert ((if float64.eqb timeout (S754_zero false) then key else key) = key) as ->
    by (by destruct (float64.eqb _ _)).
  cbn [rPlush writeInteger Write set_conn set_chans set_blockings set_rPlush].
  rewrite at_key_insert.
  split; [reflexivity|].
  rewrite !writeBulkString_Write, !Write_Write.
  cbn [rPlush blockings chans conn written set_chans set_rPlush set_mu set_conn set_blockings
       set_next_chan Write w1].
  rewrite !at_key_insert.
  cbn [blockings chans writeInteger Write set_conn set_chans set_blockings set_rPlush set_mu].
  rewrite at_key_insert.
  split; [by rewrite !append_assoc|]. split; [done|]. split; [done|].
  rewrite delete_insert_eq. by apply delete_id.
Qed.

Lemma filter_others (ch : nat) (q : list BlockingRequest) :
  Forall (λ r, Ch r ≠ ch) q → filter (λ r, Ch r ≠ ch) q = q.
Proof.
  induction 1 as [|r q Hr _ IH]; [done|].
  rewrite filter_cons, decide_True by done. by rewrite IH.
Qed.

(** X17.  A client that calls BLPOP with a timeout other than zero on an
    empty list is parked behind the waiters already there; when its timer
    fires it takes its own entry out of the queue, which is then as it
    was before the call, and answers null.  The lists and the store are
    untouched and the lock is free again. *)
Theorem blpop_times_out (key t : string) (timeout : spec_float) (w : World) :
  mu w = false → at_key (rPlush w) key = [] → ParseFloat t = Some timeout →
  float64.eqb timeout (S754_zero false) = false →
  Forall (λ r, Ch r ≠ next_chan w) (at_key (blockings w) key) →
  ∃ w1 req w2,
    dispatch ParseFloat ["BLPOP"; key; t] w = ChanWait w1 req false
    ∧ at_key (blockings w1) key = at_key (blockings w) key ++ [req]
    ∧ handleBLPop_timeout req w1 = Done w2
    ∧ written (conn w2) = written (conn w) +:+ null
    ∧ at_key (blockings w2) key = at_key (blockings w) key
    ∧ rPlush w2 = rPlush w ∧ store w2 = store w ∧ mu w2 = false.
Proof.
  intros Hmu Hl Ht Hz Hq.
  change (dispatch ParseFloat ["BLPOP"; key; t] w)
    with (handleBLPop ParseFloat ["BLPOP"; key; t] w).
  rewrite (handleBLPop_wait _ _ _ _ timeout) by done. cbn zeta. rewrite Hz.
  eexists _, _, _. split; [reflexivity|].
  cbn [blockings set_blockings set_next_chan]. rewrite at_key_insert.
  split; [reflexivity|].
  unfold handleBLPop_timeout. cbn [mu set_blockings set_next_chan]. rewrite Hmu.
  split; [reflexivity|].
  cbn [blockings rPlush store mu conn written set_mu set_blockings set_next_chan Key Ch
       writeNull Write set_conn].
  rewrite !at_key_insert, filter_app, filter_others by done.
  rewrite filter_cons, decide_False by (intros H; by apply H).
  cbn [filter list_filter]. by rewrite app_nil_r.
Qed.

(** X18.  A waiter can be woken for nothing.  A client is parked in BLPOP
    on an empty list; a second client pushes one element, which wakes the
    first, and pops it again before the first one runs.  The first client
    then finds the list empty and returns without writing any reply. *)
Theorem blpop_woken_for_nothing (key t v : string) (timeout : spec_float)
    (other : Conn) (w : World) :
  mu w = false → at_key (rPlush w) key = [] → at_key (blockings w) key = [] →
  chans w !! next_chan w = None → ParseFloat t = Some timeout →
  ∃ w1 req forever w2 w3 w4,
    dispatch ParseFloat ["BLPOP"; key; t] w = ChanWait w1 req forever
    ∧ dispatch ParseFloat ["RPUSH"; key; v] (set_conn (λ _, other) w1) = Done w2
    ∧ dispatch ParseFloat ["LPOP"; key] w2 = Done w3
    ∧ written (conn w3)
      = written other +:+ ":1" +:+ CRLF +:+ encode_bulk v
    ∧ handleBLPop_signal req forever (set_conn (λ _, conn w1) w3) = Done w4
    ∧ written (conn w4) = written (conn w)
    ∧ at_key (rPlush w4) key = [] ∧ at_key (blockings w4) key = [].
Proof.
  intros Hmu Hl Hq Hc Ht.
  change (dispatch ParseFloat ["BLPOP"; key; t] w)
    with (handleBLPop ParseFloat ["BLPOP"; key; t] w).
  rewrite (handleBLPop_wait _ _ _ _ timeout) by done. cbn zeta. rewrite Hq, app_nil_l.
  set (req := {| Key := key; Ch := next_chan w;
                 Timeout := float64.to_int64
                              (float64.mul timeout (float64.of_Z time.Second)) |}).
  set (w1 := set_blockings <[key := [req]]> (set_next_chan (S (next_chan w)) w)).
  exists w1, req, (float64.eqb timeout (S754_zero false)).
  change (dispatch ParseFloat ["RPUSH"; key; v] ?x) with (handleRPush ["RPUSH"; key; v] x).
  change (dispatch ParseFloat ["LPOP"; key] ?x) with (handleLPop ["LPOP"; key] x).
  rewrite handleRPush_Done by done.
  change (at_key (rPlush (set_conn (λ _, other) w1)) key) with (at_key (rPlush w) key).
  rewrite Hl, app_nil_l. cbn zeta.
  rewrite (wake_head key req []); [|apply lookup_insert_eq|exact Hc].
  eexists _, _, _. split; [reflexivity|]. split; [reflexivity|].
  rewrite handleLPop_single.
  cbn [rPlush writeInteger Write set_conn set_chans set_blockings set_rPlush set_mu].
  rewrite at_key_insert, writeBulkString_Write.
  split; [reflexivity|].
  cbn [conn written writeInteger Write set_conn set_chans set_blockings set_rPlush set_mu].
  split; [by rewrite !append_assoc|].
  unfold handleBLPop_signal.
  cbn [chans set_chans set_rPlush set_mu set_conn set_blockings set_next_chan Ch Key
       writeInteger Write req].
  rewrite lookup_insert_eq.
  assert ((if float64.eqb timeout (S754_zero false) then key else key) = key) as ->
    by (by destruct (float64.eqb _ _)).
  cbn [rPlush writeInteger Write set_conn set_chans set_blockings set_rPlush set_mu].
  rewrite at_key_insert.
  split; [reflexivity|].
  cbn [rPlush blockings conn written writeInteger Write set_conn set_chans set_blockings
       set_rPlush set_mu w1].
  by rewrite !at_key_insert.
Qed.

(** One RPUSH that gets the lock, as the waiters and the list see it. *)
Lemma rpush_step (key : string) (vs : list string) (w : World) :
  vs ≠ [] → mu w = false →
  ∃ w1,
    handleRPush ("RPUSH" :: key :: vs) w = Done w1
    ∧ mu w1 = false
    ∧ at_key (rPlush w1) key = at_key (rPlush w) key ++ vs
    ∧ at_key (blockings w1) key = tail (at_key (blockings w) key)
    ∧ (∀ ch, is_Some (chans w !! ch) → is_Some (chans w1 !! ch))
    ∧ (∀ r, head (at_key (blockings w) key) = Some r → is_Some (chans w1 !! Ch r)).
Proof.
  intros Hne Hmu. rewrite handleRPush_Done by done. cbn zeta.
  eexists. split; [reflexivity|]. split; [done|]. split; [apply push_leaves|].
  cbn [blockings chans set_mu writeInteger Write set_conn].
  rewrite wake_blockings, wake_chans.
  cbn [blockings chans set_mu set_rPlush].
  destruct (at_key (blockings w) key) as [|r q] eqn:Hq; cbn [tail head].
  - rewrite Hq. split; [done|]. split; [done|]. by intros r [=].
  - rewrite at_key_insert. split; [done|].
    destruct (chans w !! Ch r) as [x|] eqn:Hr.
    + split; [done|]. intros r' [= <-]. by rewrite Hr.
    + split.
      * intros ch Hch. destruct (decide (ch = Ch r)) as [->|Hneq].
        -- by rewrite lookup_insert_eq.
        -- by rewrite lookup_insert_ne.
      * intros r' [= <-]. by rewrite lookup_insert_eq.
Qed.

(** X19.  Pushes that follow one another serve the waiters of the key in
    the order of their arrival, one waiter per push: after n pushes the
    first n waiters are off the queue, each with a value in its channel,
    the others wait on in their order, and the list holds everything that
    was pushed, in the order of the pushes. *)
Theorem pushes_wake_in_order (key : string) (vss : list (list string)) (w : World) :
  mu w = false → Forall (λ vs, vs ≠ []) vss →
  ∃ w',
    pushes key vss w = Done w'
    ∧ at_key (rPlush w') key = at_key (rPlush w) key ++ concat vss
    ∧ at_key (blockings w') key = drop (length vss) (at_key (blockings w) key)
    ∧ (∀ r, r ∈ take (length vss) (at_key (blockings w) key) → is_Some (chans w' !! Ch r))
    ∧ mu w' = false.
Proof.
  intros Hmu Hvss.
  cut (∃ w',
         pushes key vss w = Done w'
         ∧ at_key (rPlush w') key = at_key (rPlush w) key ++ concat vss
         ∧ at_key (blockings w') key = drop (length vss) (at_key (blockings w) key)
         ∧ (∀ r, r ∈ take (length vss) (at_key (blockings w) key) →
                 is_Some (chans w' !! Ch r))
         ∧ mu w' = false
         ∧ (∀ ch, is_Some (chans w !! ch) → is_Some (chans w' !! ch))).
  { intros (w' & ? & ? & ? & ? & ? & _). by exists w'. }
  revert w Hmu. induction Hvss as [|vs vss Hvs _ IH]; intros w Hmu.
  - exists w. cbn [pushes concat length take drop]. rewrite app_nil_r.
    repeat split; try done. intros r Hr. by apply elem_of_nil in Hr.
  - destruct (rpush_step key vs w Hvs Hmu) as (w1 & Hpush & Hmu1 & Hl1 & Hq1 & Hmono & Hhead).
    destruct (IH w1 Hmu1) as (w' & Hrun & Hl & Hq & Hch & Hmu' & Hmono').
    exists w'. cbn [pushes]. rewrite Hpush.
    split; [done|]. split; [by rewrite Hl, Hl1, <- app_assoc|].
    split.
    { rewrite Hq, Hq1. destruct (at_key (blockings w) key); cbn [tail length drop];
        by rewrite ?drop_nil. }
    split; [|split; [done|by auto]].
    intros r Hr. rewrite Hq1 in Hch.
    destruct (at_key (blockings w) key) as [|r0 q]; [by apply elem_of_nil in Hr|].
    cbn [length take tail] in *. apply elem_of_cons in Hr as [->|Hr].
    + by apply Hmono', Hhead.
    + by apply Hch.
Qed.

(** X21.  The command token is only looked at in upper case: two tokens
    of a supported command that differ in the case of their letters are
    served alike, reply and state. *)
Theorem dispatch_ignores_case (c c' : string) (rest : list string) (w : World) :
  strings.ToUpper c = strings.ToUpper c' → strings.ToUpper c ∈ supported →
  dispatch ParseFloat (c :: rest) w = dispatch ParseFloat (c' :: rest) w.
Proof.
  intros Hcc Hin. unfold dispatch.
  change (arg (c :: rest) 0) with c. change (arg (c' :: rest) 0) with c'.
  rewrite <- Hcc. unfold supported in Hin.
  repeat (apply elem_of_cons in Hin as [->|Hin]); [..|by apply elem_of_nil in Hin];
    reflexivity.
Qed.

(** ** The waiter queues stay in order *)

Lemma push_loop_frame (f : string → gmap string (list string) → gmap string (list string))
    (xs : list string) (w : World) :
  blockings (foldl (λ w a, set_rPlush (f a) w) w xs) = blockings w
  ∧ next_chan (foldl (λ w a, set_rPlush (f a) w) w xs) = next_chan w.
Proof.
  revert w. induction xs as [|x xs IH]; intros w; [done|]. cbn [foldl].
  by destruct (IH (set_rPlush (f x) w)) as [-> ->].
Qed.

Lemma wake_queue_sublist (key k : string) (w : World) :
  at_key (blockings (wakeUpFirstBlocking key w)) k `sublist_of` at_key (blockings w) k.
Proof.
  rewrite wake_blockings. destruct (at_key (blockings w) key) as [|r q] eqn:Hq; [done|].
  destruct (decide (k = key)) as [->|Hne].
  - rewrite at_key_insert, Hq. by apply sublist_cons.
  - unfold at_key. by rewrite lookup_insert_ne.
Qed.

Lemma wake_next_chan (key : string) (w : World) :
  next_chan (wakeUpFirstBlocking key w) = next_chan w.
Proof. unfold wakeUpFirstBlocking. by repeat case_match. Qed.

Lemma queues_step_same (w w' : World) :
  next_chan w' = next_chan w → blockings w' = blockings w → queues_step w (Done w').
Proof. intros Hn Hb. split; [done|]. intros k. by rewrite Hb. Qed.

Lemma handleLPush_queues (args : list string) (w : World) :
  queues_step w (handleLPush args w).
Proof.
  unfold handleLPush. destruct (len args <? 3); [by apply queues_step_same|].
  destruct (mu w); [done|].
  pose proof (push_loop_frame (λ a m, <[arg args 1 := a :: at_key m (arg args 1)]> m)
                (drop 2 args) (set_mu true w)) as [Hb Hn].
  split.
  - cbn [next_chan set_mu writeInteger Write set_conn]. by rewrite wake_next_chan, Hn.
  - intros k. cbn [blockings set_mu writeInteger Write set_conn].
    etrans; [apply wake_queue_sublist|]. by rewrite Hb.
Qed.

Lemma handleRPush_queues (args : list string) (w : World) :
  queues_step w (handleRPush args w).
Proof.
  unfold handleRPush. destruct (len args <? 3); [by apply queues_step_same|].
  destruct (mu w); [done|].
  pose proof (push_loop_frame (λ a m, <[arg args 1 := at_key m (arg args 1) ++ [a]]> m)
                (drop 2 args) (set_mu true w)) as [Hb Hn].
  split.
  - cbn [next_chan set_mu writeInteger Write set_conn]. by rewrite wake_next_chan, Hn.
  - intros k. cbn [blockings set_mu writeInteger Write set_conn].
    etrans; [apply wake_queue_sublist|]. by rewrite Hb.
Qed.

Lemma handleBLPop_queues (args : list string) (w : World) :
  queues_step w (handleBLPop ParseFloat args w).
Proof.
  unfold handleBLPop. destruct (negb _); [by apply queues_step_same|].
  destruct (mu w); [done|]. cbn [rPlush set_mu].
  destruct (rPlush w !! arg args 1) as [[|x l]|];
    try (rewrite !writeBulkString_Write; by apply queues_step_same);
    destruct (ParseFloat _); by (apply queues_step_same || done).
Qed.

Lemma dispatch_queues (args : list string) (w : World) :
  queues_step w (dispatch ParseFloat args w).
Proof.
  destruct (decide (strings.ToUpper (arg args 0) ∈ ["LPUSH"; "RPUSH"; "BLPOP"])) as [Hin|Hout].
  - unfold dispatch.
    repeat (apply elem_of_cons in Hin as [->|Hin]); [..|by apply elem_of_nil in Hin].
    + apply handleLPush_queues.
    + apply handleRPush_queues.
    + apply handleBLPop_queues.
  - destruct (dispatch_without_lock ParseFloat args w Hout) as (w' & -> & _ & Hb & _ & Hn).
    by apply queues_step_same.
Qed.

Lemma queues_ok_step (w : World) (o : outcome) :
  queues_ok w → queues_step w o →
  match o with
  | Done w' | ChanWait w' _ _ => queues_ok w'
  | LockWait => True
  end.
Proof.
  intros Hok. destruct o as [w'| |w' req forever]; [|done|].
  - intros [Hn Hsub] key. destruct (Hok key) as [Hall Hdup]. rewrite Hn. split.
    + rewrite Forall_forall in Hall |- *. intros r Hr.
      apply Hall. by eapply elem_of_sublist.
    + eapply sublist_NoDup; [exact Hdup|]. by apply fmap_sublist.
  - intros (Hn & Hch & Hb) key. destruct (Hok key) as [Hall Hdup]. rewrite Hn, Hb.
    destruct (decide (key = Key req)) as [->|Hne].
    + rewrite at_key_insert. split.
      * apply Forall_app. split.
        -- eapply Forall_impl; [exact Hall|]. intros r [??]. split; [done|lia].
        -- apply Forall_singleton. split; [done|lia].
      * rewrite fmap_app. apply NoDup_app. split; [done|]. split; [|apply NoDup_singleton].
        intros ch Hin Hin'. apply list_elem_of_singleton in Hin'. subst ch.
        apply list_elem_of_fmap in Hin as (r & Hr & Hin).
        rewrite Forall_forall in Hall. destruct (Hall r Hin) as [_ Hlt]. lia.
    + unfold at_key. rewrite lookup_insert_ne by done. split; [|done].
      eapply Forall_impl; [exact Hall|]. intros r [??]. split; [done|lia].
Qed.

(** X20.  The waiter queues stay in order.  If every queued request sits
    under its own key, with a channel made earlier and no channel twice
    in a queue, then the same holds after any command, after a wake-up
    and after a timeout; it holds when the server starts. *)
Theorem queues_ok_kept (w : World) :
  queues_ok w →
  (∀ args,
     match dispatch ParseFloat args w with
     | Done w' | ChanWait w' _ _ => queues_ok w'
     | LockWait => True
     end)
  ∧ (∀ req forever,
       match handleBLPop_signal req forever w with
       | Done w' | ChanWait w' _ _ => queues_ok w'
       | LockWait => True
       end)
  ∧ (∀ req,
       match handleBLPop_timeout req w with
       | Done w' | ChanWait w' _ _ => queues_ok w'
       | LockWait => True
       end).
Proof.
  intros Hok. split; [|split].
  - intros args. apply (queues_ok_step w); [done|]. apply dispatch_queues.
  - intros req forever. unfold handleBLPop_signal.
    destruct (chans w !! Ch req); [|done].
    destruct (at_key _ _); [done|]. by rewrite !writeBulkString_Write.
  - intros req. apply (queues_ok_step w); [done|]. unfold handleBLPop_timeout.
    destruct (mu w); [done|]. split; [done|]. intros k.
    cbn [blockings set_mu set_blockings writeNull Write set_conn].
    destruct (decide (k = Key req)) as [->|Hne].
    + rewrite at_key_insert. apply sublist_filter.
    + unfold at_key. by rewrite lookup_insert_ne.
Qed.

Lemma queues_ok_boot (lines : list string) : queues_ok (boot lines).
Proof. intros key. split; [apply Forall_nil_2|apply NoDup_nil_2]. Qed.

End Waiting.

(** * The single-file server *)

Lemma ReadString_pending (w : World) :
  match ReadString w with
  | (inl _, w') => S (length (pending (conn w'))) = length (pending (conn w))
  | (inr _, w') => w' = w ∧ pending (conn w) = []
  end.
Proof. unfold ReadString. by destruct (pending (conn w)). Qed.

Lemma read_args_pending (n : nat) (args : list string) (w : World) :
  (length (pending (conn (main.read_args n args w).2)) ≤ length (pending (conn w)))%nat.
Proof.
  revert args w. induction n as [|n IH]; intros args w; [done|].
  cbn [main.read_args].
  pose proof (ReadString_pending w) as H1. destruct (ReadString w) as [[l|e] w1].
  - pose proof (ReadString_pending w1) as H2. destruct (ReadString w1) as [[a|e] w2].
    + specialize (IH (args ++ [strings.TrimSpace a]) w2). lia.
    + destruct H2 as [-> _]. cbn. lia.
  - by destruct H1 as [-> _].
Qed.

(** A round that ends in [continue] has read at least one line. *)
Lemma body_reads (w w' : World) :
  main.handleConnection_body w = main.Continue w' →
  (length (pending (conn w')) < length (pending (conn w)))%nat.
Proof.
  unfold main.handleConnection_body.
  pose proof (ReadString_pending w) as H1. destruct (ReadString w) as [[l|e] w1]; [|done].
  cbn zeta. destruct (decide _); [intros [= <-]; lia|].
  destruct (negb _); [intros [= <-]; cbn; lia|].
  pose proof (read_args_pending (Z.to_nat (main.parseLength (strings.TrimSpace l))) [] w1) as H2.
  destruct (main.read_args _ _ _) as [[args|] w2]; [|done]. cbn [snd] in H2.
  destruct (len args =? 0); intros [= <-].
  - cbn. lia.
  - assert (pending (conn (main.switch args w2)) = pending (conn w2)) as ->; [|lia].
    unfold main.switch. repeat case_match; reflexivity.
Qed.

(** X23.  The loop of the single-file server comes to an end on every
    input: when the lines of the connection are used up it returns, at the
    latest in the round after the last line, and the round of the return
    writes nothing. *)
Theorem main_loop_returns (w : World) :
  (∃ w', main.handleConnection (S (length (pending (conn w)))) w = main.Return w')
  ∧ (pending (conn w) = [] → main.handleConnection_body w = main.Return w).
Proof.
  split.
  - remember (S (length (pending (conn w)))) as n eqn:Hn.
    assert (length (pending (conn w)) < n)%nat as Hlt by lia. clear Hn.
    revert w Hlt. induction n as [|n IH]; intros w Hlt; [lia|].
    cbn [main.handleConnection].
    destruct (main.handleConnection_body w) as [w1|w1] eqn:Hbody; [|by eexists].
    apply IH. apply body_reads in Hbody. lia.
  - intros Hw. unfold main.handleConnection_body, ReadString. by rewrite Hw.
Qed.

(** X24.  In the single-file server SET k v followed by GET k, at any
    later clock reading, answers the simple string [+v], for the empty
    value too, whose answer [+] differs from the null of an absent key. *)
Theorem main_set_then_get (k v : string) (w : World) (t : Z) :
  let w1 := set_now t (main.switch ["SET"; k; v] w) in
  main.switch ["GET"; k] w1 = Write ("+" +:+ v +:+ CRLF) w1
  ∧ "+" +:+ v +:+ CRLF ≠ "$-1" +:+ CRLF
  ∧ written (conn w1) = written (conn w) +:+ "+OK" +:+ CRLF.
Proof.
  intros w1. split; [|done].
  unfold main.switch, arg. cbn [nth]. change (strings.ToUpper "GET") with "GET".
  cbn [decide]. 
  change (negb (len ["GET"; k] =? 2)) with false. cbn iota.
  assert (store w1 !! k = Some {| Value := v; ExpiryTime := time.Zero |}) as ->
    by apply lookup_insert_eq.
  reflexivity.
Qed.

Section Versions.

Variable ParseFloat : string → option spec_float.

(** X25.  PING, ECHO, SET and the tokens that neither server knows are
    served alike by the two servers: the switch of the single-file server
    leaves the world in which the handlers return. *)
Theorem main_agrees (args : list string) (w : World) :
  strings.ToUpper (arg args 0) ∈ ["PING"; "ECHO"; "SET"]
  ∨ strings.ToUpper (arg args 0) ∉ supported →
  dispatch ParseFloat args w = Done (main.switch args w).
Proof.
  intros [Hin|Hout]; unfold dispatch, main.switch.
  - repeat (apply elem_of_cons in Hin as [->|Hin]); [..|by apply elem_of_nil in Hin].
    + reflexivity.
    + change (handleEcho args w
              = Done (if negb (len args =? 2)
                      then Write ("-ERR wrong number of arguments for 'ECHO'" +:+ CRLF) w
                      else Write ("+" +:+ arg args 1 +:+ CRLF) w)).
      unfold handleEcho. by destruct (negb _).
    + rewrite !(decide_False (P := "SET" = "PING")), !(decide_False (P := "SET" = "ECHO")),
        !(decide_True (P := "SET" = "SET")) by done.
      unfold handleSet. repeat case_match; reflexivity.
  - repeat (case_decide as E;
            [exfalso; apply Hout; rewrite E; unfold supported; set_solver|clear E]).
    unfold writeError. by rewrite !append_assoc.
Qed.

End Versions.

(** * The further properties at work *)


Lemma set_px_not_integer_witness :
  dispatch strconv.ParseFloat_decimal ("set" :: "k" :: "v" :: "PX" :: "soon" :: []) (boot [])
  = Done (Write ("-ERR PX value must be integer" +:+ CRLF) (boot [])).
Proof.
  apply (set_px_not_integer strconv.ParseFloat_decimal "set" "k" "v" "PX" "soon" [] (boot []));
    reflexivity.
Defined.

Lemma wrong_arity_witness :
  dispatch strconv.ParseFloat_decimal ["get"] (set_mu true (boot []))
  = Done (Write ("-ERR wrong number of arguments for '" +:+ "GET" +:+ "'" +:+ CRLF)
            (set_mu true (boot []))).
Proof.
  apply (wrong_arity strconv.ParseFloat_decimal ["get"] "GET" (set_mu true (boot []))).
  - reflexivity.
  - apply (bool_decide_unpack _). vm_compute. exact I.
  - reflexivity.
Defined.

Lemma read_only_commands_witness :
  ∃ r, dispatch strconv.ParseFloat_decimal ["llen"; "mylist"] three_items
       = Done (Write r three_items).
Proof.
  apply (read_only_commands strconv.ParseFloat_decimal ["llen"; "mylist"] three_items).
  apply (bool_decide_unpack _). vm_compute. exact I.
Defined.

Lemma commands_without_lock_witness :
  ∃ w',
    dispatch strconv.ParseFloat_decimal ["LPOP"; "mylist"] (set_mu true three_items) = Done w'
    ∧ mu w' = mu (set_mu true three_items)
    ∧ blockings w' = blockings (set_mu true three_items)
    ∧ chans w' = chans (set_mu true three_items)
    ∧ next_chan w' = next_chan (set_mu true three_items).
Proof.
  apply (commands_without_lock strconv.ParseFloat_decimal ["LPOP"; "mylist"]
           (set_mu true three_items)).
  apply (bool_decide_unpack _). vm_compute. exact I.
Defined.

Lemma commands_with_lock_witness :
  dispatch strconv.ParseFloat_decimal ["rpush"; "jobs"; "a"] (set_mu true (boot [])) = LockWait
  ∧ ∃ w', dispatch strconv.ParseFloat_decimal ["rpush"; "jobs"; "a"] (boot []) = Done w'
          ∧ mu w' = false.
Proof.
  split.
  - apply (commands_with_lock strconv.ParseFloat_decimal ["rpush"; "jobs"; "a"]
             (set_mu true (boot []))).
    + apply (bool_decide_unpack _). vm_compute. exact I.
    + reflexivity.
    + reflexivity.
  - apply (commands_with_lock strconv.ParseFloat_decimal ["rpush"; "jobs"; "a"] (boot [])).
    + apply (bool_decide_unpack _). vm_compute. exact I.
    + reflexivity.
    + reflexivity.
    + vm_compute. intros E. discriminate E.
Defined.


Lemma lrange_elements_witness :
  ∃ items,
    dispatch strconv.ParseFloat_decimal ["LRANGE"; "mylist"; "1"; "2"] three_items
    = Done (Write (encode_array items) three_items)
    ∧ len items = 2 - 1 + 1
    ∧ ∀ i : nat, Z.of_nat i < 2 - 1 + 1 →
                 items !! i = at_key (rPlush three_items) "mylist" !! (Z.to_nat 1 + i)%nat.
Proof.
  apply (lrange_elements strconv.ParseFloat_decimal "mylist" "1" "2" 1 2 three_items);
    [reflexivity|reflexivity|lia|vm_compute; reflexivity].
Defined.

Lemma push_then_pop_witness :
  (∃ w1 w2,
      dispatch strconv.ParseFloat_decimal ("RPUSH" :: "q" :: ["a"; "b"; "c"]) (boot [])
      = Done w1
      ∧ dispatch strconv.ParseFloat_decimal ["LPOP"; "q"; "2"] w1 = Done w2
      ∧ written (conn w2)
        = written (conn w1) +:+ encode_array (take (Z.to_nat 2) ["a"; "b"; "c"])
      ∧ at_key (rPlush w2) "q" = drop (Z.to_nat 2) ["a"; "b"; "c"])
  ∧ (∃ w1 w2,
      dispatch strconv.ParseFloat_decimal ("LPUSH" :: "q" :: ["a"; "b"; "c"]) (boot [])
      = Done w1
      ∧ dispatch strconv.ParseFloat_decimal ["LPOP"; "q"; "2"] w1 = Done w2
      ∧ written (conn w2)
        = written (conn w1) +:+ encode_array (take (Z.to_nat 2) (rev ["a"; "b"; "c"]))
      ∧ at_key (rPlush w2) "q" = drop (Z.to_nat 2) (rev ["a"; "b"; "c"])).
Proof.
  apply (push_then_pop strconv.ParseFloat_decimal "q" "2" 2 ["a"; "b"; "c"] (boot []));
    [intros E; discriminate E|reflexivity|reflexivity|reflexivity|lia].
Defined.


Lemma writeBulkString_inj_witness :
  written (conn (writeBulkString "PING" (boot []))) = "$4" +:+ CRLF +:+ "PING" +:+ CRLF
  ∧ "PING" = "PING".
Proof.
  split; [reflexivity|]. apply (writeBulkString_inj "PING" "PING" (boot [])). reflexivity.
Defined.

Lemma parseArgs_decodes_witness :
  parseArgs
    (boot (("*2" +:+ CRLF)
           :: interleave [("$4" +:+ CRLF, "ECHO" +:+ CRLF); ("$99" +:+ CRLF, "  hi  " +:+ CRLF)]
           ++ ["*1" +:+ CRLF]))
  = (inl (strings.TrimSpace ∘ snd
            <$> [("$4" +:+ CRLF, "ECHO" +:+ CRLF); ("$99" +:+ CRLF, "  hi  " +:+ CRLF)]),
     with_pending ["*1" +:+ CRLF]
       (boot (("*2" +:+ CRLF)
              :: interleave [("$4" +:+ CRLF, "ECHO" +:+ CRLF); ("$99" +:+ CRLF, "  hi  " +:+ CRLF)]
              ++ ["*1" +:+ CRLF]))).
Proof.
  apply (parseArgs_decodes ("*2" +:+ CRLF)
           [("$4" +:+ CRLF, "ECHO" +:+ CRLF); ("$99" +:+ CRLF, "  hi  " +:+ CRLF)]
           ["*1" +:+ CRLF]).
  - reflexivity.
  - vm_compute. intros E. discriminate E.
  - reflexivity.
  - reflexivity.
Defined.

Lemma frame_is_dispatched_witness :
  HandleConnection_body strconv.ParseFloat_decimal
    (boot (frame ["ECHO"; "hi"] ++ ["*1" +:+ CRLF]))
  = dispatch strconv.ParseFloat_decimal ["ECHO"; "hi"]
      (with_pending ["*1" +:+ CRLF] (boot (frame ["ECHO"; "hi"] ++ ["*1" +:+ CRLF]))).
Proof.
  apply (frame_is_dispatched strconv.ParseFloat_decimal ["ECHO"; "hi"] ["*1" +:+ CRLF]).
  - intros E. discriminate E.
  - reflexivity.
  - repeat (apply Forall_cons_2; [reflexivity|]). apply Forall_nil_2.
  - repeat (apply Forall_cons_2; [reflexivity|]). apply Forall_nil_2.
  - reflexivity.
Defined.

Lemma invalid_format_witness :
  HandleConnection_body strconv.ParseFloat_decimal (boot ["PING" +:+ CRLF; "*1" +:+ CRLF])
  = Done (Write ("-ERR invalid format" +:+ CRLF +:+ "-ERR invalid format" +:+ CRLF)
            (with_pending ["*1" +:+ CRLF] (boot ["PING" +:+ CRLF; "*1" +:+ CRLF]))).
Proof.
  apply (invalid_format strconv.ParseFloat_decimal ("PING" +:+ CRLF) ["*1" +:+ CRLF]).
  - reflexivity.
  - right. reflexivity.
Defined.

Lemma empty_command_witness :
  HandleConnection_body strconv.ParseFloat_decimal (boot ["*x" +:+ CRLF; "*1" +:+ CRLF])
  = Done (Write ("-ERR empty command" +:+ CRLF)
            (with_pending ["*1" +:+ CRLF] (boot ["*x" +:+ CRLF; "*1" +:+ CRLF]))).
Proof.
  apply (empty_command strconv.ParseFloat_decimal ("*x" +:+ CRLF) ["*1" +:+ CRLF]).
  - reflexivity.
  - vm_compute. intros E. discriminate E.
  - reflexivity.
  - vm_compute. intros E. discriminate E.
Defined.

Lemma blpop_woken_by_push_witness :
  ∃ w1 req forever w2 w3,
    dispatch strconv.ParseFloat_decimal ["BLPOP"; "jobs"; "0"] (boot [])
    = ChanWait w1 req forever
    ∧ dispatch strconv.ParseFloat_decimal ("RPUSH" :: "jobs" :: "task1" :: ["task2"])
        (set_conn (λ _, client []) w1) = Done w2
    ∧ written (conn w2)
      = written (client []) +:+ ":" +:+ fmt.Sprintf_d (len ("task1" :: ["task2"])) +:+ CRLF
    ∧ handleBLPop_signal req forever (set_conn (λ _, conn w1) w2) = Done w3
    ∧ written (conn w3)
      = written (conn (boot [])) +:+ "*2" +:+ CRLF +:+ encode_bulk "jobs"
        +:+ encode_bulk "task1"
    ∧ at_key (rPlush w3) "jobs" = ["task2"]
    ∧ at_key (blockings w3) "jobs" = []
    ∧ chans w3 = chans (boot []).
Proof.
  apply (blpop_woken_by_push strconv.ParseFloat_decimal "jobs" "0" "task1" ["task2"]
           (S754_zero false) (client []) (boot [])); reflexivity.
Defined.

Lemma blpop_times_out_witness :
  ∃ w1 req w2,
    dispatch strconv.ParseFloat_decimal ["BLPOP"; "jobs"; "0.2"] two_waiters
    = ChanWait w1 req false
    ∧ at_key (blockings w1) "jobs" = at_key (blockings two_waiters) "jobs" ++ [req]
    ∧ handleBLPop_timeout req w1 = Done w2
    ∧ written (conn w2) = written (conn two_waiters) +:+ null
    ∧ at_key (blockings w2) "jobs" = at_key (blockings two_waiters) "jobs"
    ∧ rPlush w2 = rPlush two_waiters ∧ store w2 = store two_waiters ∧ mu w2 = false.
Proof.
  apply (blpop_times_out strconv.ParseFloat_decimal "jobs" "0.2"
           (S754_finite false 7205759403792794 (-55)) two_waiters).
  - reflexivity.
  - reflexivity.
  - vm_compute. reflexivity.
  - reflexivity.
  - apply (bool_decide_unpack _). vm_compute. exact I.
Defined.

Lemma blpop_woken_for_nothing_witness :
  ∃ w1 req forever w2 w3 w4,
    dispatch strconv.ParseFloat_decimal ["BLPOP"; "jobs"; "0"] (boot [])
    = ChanWait w1 req forever
    ∧ dispatch strconv.ParseFloat_decimal ["RPUSH"; "jobs"; "task1"]
        (set_conn (λ _, client []) w1) = Done w2
    ∧ dispatch strconv.ParseFloat_decimal ["LPOP"; "jobs"] w2 = Done w3
    ∧ written (conn w3) = written (client []) +:+ ":1" +:+ CRLF +:+ encode_bulk "task1"
    ∧ handleBLPop_signal req forever (set_conn (λ _, conn w1) w3) = Done w4
    ∧ written (conn w4) = written (conn (boot []))
    ∧ at_key (rPlush w4) "jobs" = [] ∧ at_key (blockings w4) "jobs" = [].
Proof.
  apply (blpop_woken_for_nothing strconv.ParseFloat_decimal "jobs" "0" "task1"
           (S754_zero false) (client []) (boot [])); reflexivity.
Defined.

Lemma pushes_wake_in_order_witness :
  ∃ w',
    pushes "jobs" [["a"]; ["b"; "c"]] two_waiters = Done w'
    ∧ at_key (rPlush w') "jobs"
      = at_key (rPlush two_waiters) "jobs" ++ concat [["a"]; ["b"; "c"]]
    ∧ at_key (blockings w') "jobs"
      = drop (length [["a"]; ["b"; "c"]]) (at_key (blockings two_waiters) "jobs")
    ∧ (∀ r, r ∈ take (length [["a"]; ["b"; "c"]]) (at_key (blockings two_waiters) "jobs")
            → is_Some (chans w' !! Ch r))
    ∧ mu w' = false.
Proof.
  apply (pushes_wake_in_order "jobs" [["a"]; ["b"; "c"]] two_waiters).
  - reflexivity.
  - repeat (apply Forall_cons_2; [intros E; discriminate E|]). apply Forall_nil_2.
Defined.

Lemma dispatch_ignores_case_witness :
  dispatch strconv.ParseFloat_decimal ("get" :: ["k"]) after_set_empty
  = dispatch strconv.ParseFloat_decimal ("GeT" :: ["k"]) after_set_empty.
Proof.
  apply (dispatch_ignores_case strconv.ParseFloat_decimal "get" "GeT" ["k"] after_set_empty).
  - reflexivity.
  - apply (bool_decide_unpack _). vm_compute. exact I.
Defined.

Lemma queues_ok_kept_witness :
  (∀ args,
     match dispatch strconv.ParseFloat_decimal args two_waiters with
     | Done w' | ChanWait w' _ _ => queues_ok w'
     | LockWait => True
     end)
  ∧ (∀ req forever,
       match handleBLPop_signal req forever two_waiters with
       | Done w' | ChanWait w' _ _ => queues_ok w'
       | LockWait => True
       end)
  ∧ (∀ req,
       match handleBLPop_timeout req two_waiters with
       | Done w' | ChanWait w' _ _ => queues_ok w'
       | LockWait => True
       end).
Proof.
  apply (queues_ok_kept strconv.ParseFloat_decimal two_waiters).
  intros key. destruct (decide (key = "jobs")) as [->|Hkey].
  - split.
    + repeat (apply Forall_cons_2; [split; [reflexivity|vm_compute; lia]|]).
      apply Forall_nil_2.
    + apply (bool_decide_unpack _). vm_compute. exact I.
  - replace (at_key (blockings two_waiters) key) with (@nil types.BlockingRequest).
    + split; [apply Forall_nil_2|apply NoDup_nil_2].
    + unfold at_key, two_waiters. cbn [blockings set_blockings set_next_chan].
      by rewrite lookup_insert_ne.
Defined.

Lemma main_loop_returns_witness :
  (∃ w', main.handleConnection (S (length (pending (conn (boot []))))) (boot [])
         = main.Return w')
  ∧ main.handleConnection_body (boot []) = main.Return (boot []).
Proof.
  destruct (main_loop_returns (boot [])) as [Hloop Hbody].
  split; [exact Hloop|]. apply Hbody. reflexivity.
Defined.

Lemma main_agrees_witness :
  dispatch strconv.ParseFloat_decimal ["SET"; "k"; "v"; "PX"; "100"] (boot [])
  = Done (main.switch ["SET"; "k"; "v"; "PX"; "100"] (boot [])).
Proof.
  apply (main_agrees strconv.ParseFloat_decimal ["SET"; "k"; "v"; "PX"; "100"] (boot [])).
  left. apply (bool_decide_unpack _). vm_compute. exact I.
Defined.
